(** * quick-nas: path sandbox, folder summaries, hook chain and plugin host

  A shallow embedding of [server.js] (validatePath, getFolderMetadata and
  the listing handler of GET /api/files) and of [lib/PluginManager.js]
  (loadPlugins, loadPlugin, validatePlugin, registerHook, addRoute,
  executeHook, getPluginInfo), with the properties the specification
  states about them. *)

From Stdlib Require Import ZArith Ascii String List Bool Lia Sorted.
From stdpp Require Import base option list strings gmap.

Local Open Scope string_scope.

(** ** JavaScript string primitives used by the sources *)

Module JsString.

Definition slash : ascii := "/"%char.

Definition is_slash (c : ascii) : bool := Ascii.eqb c slash.

(** [s.startsWith(p)] *)
Definition startsWith (s p : string) : bool := String.prefix p s.

(** [s.includes(p)]: [p] occurs somewhere in [s]. *)
Fixpoint includes (s p : string) : bool :=
  startsWith s p ||
  match s with
  | EmptyString => false
  | String _ s' => includes s' p
  end.

(** [s.split('/')]: never empty, [''.split('/')] is [['']]. *)
Fixpoint split_slash (s : string) : list string :=
  match s with
  | EmptyString => [EmptyString]
  | String c s' =>
      if is_slash c then EmptyString :: split_slash s'
      else match split_slash s' with
           | seg :: segs => String c seg :: segs
           | [] => [String c EmptyString]
           end
  end.

(** [segs.join('/')] *)
Fixpoint join_slash (segs : list string) : string :=
  match segs with
  | [] => EmptyString
  | [seg] => seg
  | seg :: rest => seg ++ String slash (join_slash rest)
  end.

(** The leading run of slashes removed: the [^\/+] alternative. *)
Fixpoint drop_leading_slashes (s : string) : string :=
  match s with
  | String c s' => if is_slash c then drop_leading_slashes s' else s
  | EmptyString => EmptyString
  end.

(** The trailing run of slashes removed: the [\/+$] alternative. *)
Fixpoint drop_trailing_slashes (s : string) : string :=
  match s with
  | EmptyString => EmptyString
  | String c s' =>
      match drop_trailing_slashes s' with
      | EmptyString => if is_slash c then EmptyString else String c EmptyString
      | rest => String c rest
      end
  end.

(** [s.replace(/^\/+|\/+$/g, '')] *)
Definition strip_slashes (s : string) : string :=
  drop_trailing_slashes (drop_leading_slashes s).

(** [s.charCodeAt(s.length - 1) === CHAR_FORWARD_SLASH] *)
Fixpoint ends_with_slash (s : string) : bool :=
  match s with
  | EmptyString => false
  | String c EmptyString => is_slash c
  | String _ s' => ends_with_slash s'
  end.

(** No slash occurs in [s]. *)
Fixpoint slash_free (s : string) : bool :=
  match s with
  | EmptyString => true
  | String c s' => negb (is_slash c) && slash_free s'
  end.

End JsString.

(** ** Node's [path] module, POSIX flavour (the server runs on Linux)

  [path.isAbsolute], [path.normalize] and [path.join] as Node documents
  them: a path is cut at its slashes, empty and [.] segments are dropped,
  a [..] segment removes the segment before it (at the root of an absolute
  path it is dropped, in front of a relative path it is kept), and a
  trailing slash is preserved. *)

Module NodePath.
Import JsString.

Definition isAbsolute (p : string) : bool :=
  match p with
  | String c _ => is_slash c
  | EmptyString => false
  end.

(** One segment pushed on the segments kept so far (most recent first). *)
Definition normalize_step (allowAboveRoot : bool) (kept : list string) (seg : string)
  : list string :=
  if String.eqb seg "" || String.eqb seg "." then kept
  else if String.eqb seg ".." then
    match kept with
    | top :: below =>
        if String.eqb top ".." then seg :: kept else below
    | [] => if allowAboveRoot then [seg] else []
    end
  else seg :: kept.

Definition normalize_from (allowAboveRoot : bool) (kept segs : list string) : list string :=
  fold_left (normalize_step allowAboveRoot) segs kept.

(** The segments [normalizeString] keeps, first segment first. *)
Definition normalizeSegments (allowAboveRoot : bool) (segs : list string) : list string :=
  rev (normalize_from allowAboveRoot [] segs).

Definition normalize (p : string) : string :=
  if String.eqb p "" then "."
  else
    let absolute := isAbsolute p in
    let trailing := ends_with_slash p in
    let body := join_slash (normalizeSegments (negb absolute) (split_slash p)) in
    if String.eqb body "" then
      if absolute then "/" else if trailing then "./" else "."
    else
      let body := if trailing then body ++ "/" else body in
      if absolute then "/" ++ body else body.

(** [path.join(a, b)]: empty arguments are skipped. *)
Definition join (a b : string) : string :=
  if String.eqb a "" then
    if String.eqb b "" then "." else normalize b
  else if String.eqb b "" then normalize a
  else normalize (a ++ "/" ++ b).

(** The canonical segment sequence of a path: the directories one walks
    through from the root (or from the working directory). *)
Definition segments (p : string) : list string :=
  normalizeSegments (negb (isAbsolute p)) (split_slash p).

(** The segments as written: what stands between the slashes. *)
Definition written_segments (p : string) : list string :=
  List.filter (fun seg => negb (String.eqb seg "")) (split_slash p).

(** Segments that survive normalisation when no [..] is around. *)
Definition proper_segment (seg : string) : bool :=
  negb (String.eqb seg "" || String.eqb seg ".").

(** What a normalised absolute path is made of. *)
Definition plain_segment (seg : string) : Prop :=
  proper_segment seg = true /\ seg <> ".." /\ slash_free seg = true.

(** The path that [path.join] is asked to normalise. *)
Definition joined (root cleaned : string) : string :=
  if String.eqb cleaned "" then root else root ++ "/" ++ cleaned.

End NodePath.

(** ** server.js: validatePath *)

Module PathSandbox.
Import JsString NodePath.

Inductive path_error :=
| Invalid_path                     (* Error('Invalid path') *)
| Path_outside_storage_directory.  (* Error('Path outside storage directory') *)

Definition validatePath (UPLOAD_DIR userPath : string) : path_error + string :=
  if String.eqb userPath "" || String.eqb userPath "/" then inr UPLOAD_DIR
  else
    let cleaned := strip_slashes userPath in
    if includes cleaned ".." || isAbsolute cleaned then inl Invalid_path
    else
      let fullPath := join UPLOAD_DIR cleaned in
      if negb (startsWith fullPath UPLOAD_DIR) then inl Path_outside_storage_directory
      else inr fullPath.

(** A root written the way [path.resolve] prints it: [/] followed by its
    own segments, no trailing slash, nothing to normalise. *)
Definition resolved_root (root : string) : bool :=
  String.eqb root ("/" ++ join_slash (segments root)).

End PathSandbox.

(** ** JavaScript Numbers that hold integers *)

Module JsNumber.

(** The double nearest to the integer [z], ties to even. Every integer of
    magnitude below 2^53 is a double; above, a double keeps 53 significant
    bits, so its unit in the last place is [2 ^ (log2 |z| - 52)]. (The
    magnitudes met here stay far below 2^1024, where doubles end.) *)
Definition round_to_double (z : Z) : Z :=
  let magnitude := Z.abs z in
  if (magnitude <? 2 ^ 53)%Z then z
  else
    let ulp := (2 ^ (Z.log2 magnitude - 52))%Z in
    let q := (magnitude / ulp)%Z in
    let r := (magnitude mod ulp)%Z in
    let q' := if (2 * r <? ulp)%Z then q
              else if (ulp <? 2 * r)%Z then (q + 1)%Z
              else if Z.even q then q else (q + 1)%Z in
    (Z.sgn z * (q' * ulp))%Z.

(** [a + b] on two Numbers that hold integers: the exact sum, rounded. *)
Definition number_add (a b : Z) : Z := round_to_double (a + b).

End JsNumber.

(** ** server.js: getFolderMetadata and the listing of GET /api/files *)

Module FolderSummarizer.
Import JsNumber.

(** What [fs.stat] and [fs.readdir] can fail with. *)
Inductive fs_error := ENOENT | EACCES | ENOTDIR.

(** [fs.Stats], the fields the server reads. [size] is a Number holding
    an integer (a byte count); adding sizes is [number_add]. *)
Record stats := { st_size : Z; st_mtime : Z; st_isDirectory : bool }.

(** The tree below a path, as [fs.stat] and [fs.readdir] show it. A
    directory has a size of its own (what [stat] reports for it); its
    entries may be unreadable. [Broken] is an entry [stat] fails on (a
    dangling link, a permission). *)
#[warnings="-register-all"] Inductive node :=
| File (size mtime : Z)
| Directory (size mtime : Z) (entries : fs_error + list (string * node))
| Broken (e : fs_error).

Definition stat (n : node) : fs_error + stats :=
  match n with
  | File size mtime => inr {| st_size := size; st_mtime := mtime; st_isDirectory := false |}
  | Directory size mtime _ =>
      inr {| st_size := size; st_mtime := mtime; st_isDirectory := true |}
  | Broken e => inl e
  end.

Definition readdir (n : node) : fs_error + list (string * node) :=
  match n with
  | File _ _ => inl ENOTDIR
  | Directory _ _ entries => entries
  | Broken e => inl e
  end.

(** A rejected promise ends the function: the error monad on [fs_error + _]. *)
#[global] Instance fs_ret : MRet (sum fs_error) := fun A a => inr a.
#[global] Instance fs_bind : MBind (sum fs_error) := fun A B f m =>
  match m with
  | inl e => inl e
  | inr a => f a
  end.

(** [for (const x of xs) { acc = body(acc, x) }] with [await]s that may reject. *)
Fixpoint for_of {A S : Type} (xs : list A) (body : S -> A -> fs_error + S) (acc : S)
  : fs_error + S :=
  match xs with
  | [] => inr acc
  | x :: rest =>
      match body acc x with
      | inl e => inl e
      | inr acc' => for_of rest body acc'
      end
  end.

Record metadata := { itemCount : nat; totalSize : Z }.

(** The inner loop, lines 83-86: [totalSize += subStats.size]. *)
Definition add_subItem (totalSize : Z) (subItem : string * node) : fs_error + Z :=
  subStats ← stat subItem.2;
  mret (number_add totalSize (st_size subStats)).

(** The body of the outer loop, lines 76-89, on [(totalSize, itemCount)]. *)
Definition add_item (acc : Z * nat) (item : string * node) : fs_error + (Z * nat) :=
  let '(totalSize, itemCount) := acc in
  stats ← stat item.2;
  let itemCount := S itemCount in
  if st_isDirectory stats then
    subItems ← readdir item.2;
    totalSize ← for_of subItems add_subItem totalSize;
    mret (totalSize, itemCount)
  else
    mret (number_add totalSize (st_size stats), itemCount).

Definition getFolderMetadata (folder : node) : fs_error + metadata :=
  items ← readdir folder;
  '(totalSize, itemCount) ← for_of items add_item (0%Z, 0);
  mret {| itemCount := itemCount; totalSize := totalSize |}.

(** One entry of the listing ([baseInfo]); the [path] field, a string
    computed from the entry's location, is left out. *)
Record file_info := {
  fi_name : string;
  fi_size : Z;
  fi_modified : Z;
  fi_isDirectory : bool;
  fi_itemCount : option nat   (* absent for files *)
}.

(** The callback of [items.map], lines 111-140: the [try]/[catch] around
    [getFolderMetadata] sets [itemCount] to 0 and keeps the size [stat]
    gave. *)
Definition itemDetail (item : string * node) : fs_error + file_info :=
  stats ← stat item.2;
  let baseInfo := {| fi_name := item.1; fi_size := st_size stats;
                     fi_modified := st_mtime stats;
                     fi_isDirectory := st_isDirectory stats;
                     fi_itemCount := None |} in
  if st_isDirectory stats then
    match getFolderMetadata item.2 with
    | inr metadata =>
        mret {| fi_name := fi_name baseInfo; fi_size := totalSize metadata;
                fi_modified := fi_modified baseInfo;
                fi_isDirectory := fi_isDirectory baseInfo;
                fi_itemCount := Some (itemCount metadata) |}
    | inl _ =>
        mret {| fi_name := fi_name baseInfo; fi_size := fi_size baseInfo;
                fi_modified := fi_modified baseInfo;
                fi_isDirectory := fi_isDirectory baseInfo;
                fi_itemCount := Some 0 |}
    end
  else mret baseInfo.

(** [Promise.all(items.map(...))]: every entry or the first rejection. *)
Fixpoint all_details (items : list (string * node)) : fs_error + list file_info :=
  match items with
  | [] => inr []
  | item :: rest =>
      info ← itemDetail item;
      infos ← all_details rest;
      mret (info :: infos)
  end.

(** Lines 109-141: the entries of the directory at [fullPath]. *)
Definition itemDetails (folder : node) : fs_error + list file_info :=
  items ← readdir folder;
  all_details items.

(** *** The summary the specification describes *)

(** The size [stat] reports for an entry. *)
Definition own_size (n : node) : Z :=
  match n with
  | File size _ | Directory size _ _ => size
  | Broken _ => 0
  end.

Definition sum_sizes (ns : list (string * node)) : Z :=
  foldr Z.add 0%Z (map (fun item => own_size item.2) ns).

(** What a direct child adds to [totalSize]: a file its size, a
    subdirectory the sizes of its own direct children. *)
Definition contribution (n : node) : Z :=
  match n with
  | File size _ => size
  | Directory _ _ (inr subItems) => sum_sizes subItems
  | _ => 0
  end.

Definition stat_ok (n : node) : bool :=
  match n with Broken _ => false | _ => true end.

(** No call of [stat] or [readdir] fails on this child. *)
Definition child_ok (n : node) : bool :=
  match n with
  | File _ _ => true
  | Directory _ _ (inr subItems) => forallb (fun item => stat_ok item.2) subItems
  | _ => false
  end.

Definition total_contribution (items : list (string * node)) : Z :=
  foldr Z.add 0%Z (map (fun item => contribution item.2) items).

(** The sizes a direct child makes getFolderMetadata add to [totalSize],
    in the order of the additions. *)
Definition added_sizes_of (n : node) : list Z :=
  match n with
  | File size _ => [size]
  | Directory _ _ (inr subItems) => map (fun item => own_size item.2) subItems
  | _ => []
  end.

Definition added_sizes (items : list (string * node)) : list Z :=
  flat_map (fun item => added_sizes_of item.2) items.

(** [totalSize] after [totalSize += size] for each of [sizes] in turn,
    every addition rounding as Numbers do. *)
Definition running_total (start : Z) (sizes : list Z) : Z :=
  fold_left number_add sizes start.

(** The largest total up to which every integer is a Number: 2^53. *)
Definition exact_below : Z := (2 ^ 53)%Z.

(** The entry the listing shows for a directory whose summary failed. *)
Definition degraded_info (name : string) (n : node) : file_info :=
  {| fi_name := name; fi_size := own_size n;
     fi_modified := match n with
                    | File _ mtime | Directory _ mtime _ => mtime
                    | Broken _ => 0%Z
                    end;
     fi_isDirectory := true; fi_itemCount := Some 0 |}.

(** Three files of sizes 10, 20 and 30 and one empty subdirectory. *)
Definition three_files_one_empty_dir : node :=
  Directory 4096 0
    (inr [("a.txt", File 10 0); ("b.txt", File 20 0); ("c.txt", File 30 0);
          ("empty", Directory 4096 0 (inr []))]).

(** Two files whose sizes add up to 2^53 + 1, which is not a Number. *)
Definition two_huge_files : node :=
  Directory 4096 0
    (inr [("a.bin", File 9007199254740991 0); ("b.bin", File 2 0)]).

(** A subdirectory that cannot be read next to a file of size 10. *)
Definition locked_child_and_file : node :=
  Directory 4096 0
    (inr [("locked", Directory 4096 0 (inl EACCES)); ("notes.txt", File 10 0)]).

End FolderSummarizer.

(** ** lib/PluginManager.js *)

Module PluginManager.
Import JsString NodePath.

(** The two values that have no properties. *)
Inductive nullish := Undefined | Null.

(** What a [throw] (or a rejected promise) carries. Any value can be
    thrown; the manager only ever reads [error.message], which itself
    raises a TypeError when the value is [null] or [undefined]. *)
Inductive thrown :=
| Thrown_nullish (v : nullish)        (* throw undefined, Promise.reject(),
                                         throw null *)
| Thrown_error (message : string).    (* any other value; [message] is what
                                         reading its .message prints *)

Inductive outcome (A : Type) :=
| Returned (a : A)
| Threw (e : thrown).
Arguments Returned {A} a.
Arguments Threw {A} e.

(** The TypeError of reading a property of [null] or [undefined]; its
    message names the value. *)
Definition type_error (v : nullish) (property : string) : thrown :=
  Thrown_error ("Cannot read properties of "
                ++ match v with Undefined => "undefined" | Null => "null" end
                ++ " (reading '" ++ property ++ "')").

(** A parsed [config.json]. *)
#[warnings="-register-all"] Inductive json :=
| JNull
| JBool (b : bool)
| JNumber (n : Z)
| JString (s : string)
| JArray (items : list json)
| JObject (fields : list (string * json)).

(** The value of a key of a parsed object: the last occurrence wins. *)
Fixpoint last_field (fields : list (string * json)) (key : string) : option json :=
  match fields with
  | [] => None
  | (k, v) :: rest =>
      match last_field rest key with
      | Some v' => Some v'
      | None => if String.eqb k key then Some v else None
      end
  end.

(** [config.enabled === false]; reading a property of [null] throws. *)
Definition enabled_is_false (config : json) : outcome bool :=
  match config with
  | JNull => Threw (type_error Null "enabled")
  | JObject fields =>
      match last_field fields "enabled" with
      | Some (JBool false) => Returned true
      | _ => Returned false
      end
  | _ => Returned false
  end.

(** The lines the manager writes to the console, one constructor a call. *)
Inductive log_entry :=
| Log_no_plugins_directory
| Log_loading_plugins_from (dir : string)
| Log_loaded_plugins (count : nat)
| Error_loading_plugins (message : string)
| Warn_no_index (pluginName : string)
| Log_disabled (pluginName : string)
| Warn_missing_init (pluginName : string)
| Log_plugin_loaded (name version : string)
| Error_failed_to_load (pluginName message : string)
| Error_in_hook (hookName message : string).

Record dirent := { d_name : string; d_isDirectory : bool }.

(** [a || b] on strings that may be missing: [undefined] and [''] are falsy. *)
Definition or_default (a : option string) (b : string) : string :=
  match a with
  | Some s => if String.eqb s "" then b else s
  | None => b
  end.

(** [Map.prototype.set] on a map kept in insertion order: an existing key
    keeps its place. *)
Fixpoint map_set {V : Type} (m : list (string * V)) (key : string) (v : V)
  : list (string * V) :=
  match m with
  | [] => [(key, v)]
  | (k, v') :: rest =>
      if String.eqb k key then (k, v) :: rest else (k, v') :: map_set rest key v
  end.

Fixpoint map_get {V : Type} (m : list (string * V)) (key : string) : option V :=
  match m with
  | [] => None
  | (k, v) :: rest => if String.eqb k key then Some v else map_get rest key
  end.

Section Manager.

(** Payload values other than [undefined]; [option P] adds [undefined]. *)
Variable P : Type.
(** Everything a callback or a plugin can touch besides the manager: files,
    network, its own variables. *)
Variable W : Type.
(** Route handlers. *)
Variable H : Type.

(** A hook callback: called with the payload, it returns a value (maybe
    [undefined]) or throws, and may have acted on the world. Callbacks
    that call [registerHook] or [addRoute] again while they run (they can:
    [init] had them in its context) are not covered. *)
Definition callback : Type := option P -> W -> outcome (option P) * W.

Record route := { r_method : string; r_path : string; r_handler : H }.

(** What [init] does with the [context] it is given. *)
Inductive registration :=
| Register_hook (hookName : string) (cb : callback)
| Add_route (method path : string) (handler : H).

(** A run of [plugin.init(context)]: the calls made on [context], in order,
    before the function returned or threw. *)
Record init_run := {
  registrations : list registration;
  init_result : outcome unit;
  init_world : W
}.

(** [module.exports] of a plugin: what reading [plugin.name],
    [plugin.version] and [plugin.description] gives ([None]: undefined) and
    [init], [None] when [typeof plugin.init] is not ['function']. *)
Record plugin_module := {
  p_name : option string;
  p_version : option string;
  p_description : option string;
  p_init : option (json -> string -> W -> init_run)   (* config, pluginDir *)
}.

(** The values of [this.plugins]. *)
Record plugin_entry := {
  e_name : string;
  e_version : string;
  e_description : string;
  e_module : plugin_module
}.

(** What [getPluginInfo] shows of an entry. *)
Record plugin_info := { name : string; version : string; description : string }.

(** The fields of a [PluginManager]. *)
Record manager := {
  pluginsDir : string;
  plugins : list (string * plugin_entry);
  hooks : gmap string (list callback);
  routes : list route
}.

(** [new PluginManager(pluginsDir)] *)
Definition constructor (pluginsDir : string) : manager :=
  {| pluginsDir := pluginsDir; plugins := []; hooks := ∅; routes := [] |}.

(** The files of one plugin directory. *)
Record plugin_files := {
  has_index : bool;                       (* index.js exists *)
  config_json : option (string + json);   (* config.json: absent, unreadable
                                             or unparsable (the message), parsed *)
  index_js : outcome (nullish + plugin_module)
    (* require(indexPath): throws, or exports ([inl]: null or undefined).
       The module's top-level code is taken to leave the world alone: a
       plugin acts from [init] and from its callbacks *)
}.

(** The plugins directory. *)
Record plugins_fs := {
  dir_exists : bool;                      (* existsSync(pluginsDir) *)
  mkdir : W -> option string * W;
    (* fs.mkdir(pluginsDir, { recursive: true }): the world it leaves and
       the message it rejects with, if it does *)
  dir_entries : string + list dirent;
    (* readdir: the message or the entries; fs.readdir lists the names in
       byte order (libuv's scandir sorts them with strcmp), see
       [lexicographic] *)
  plugin_dir : string -> plugin_files
}.

(** The mutable state: the manager ([this]), the world and the console. *)
Record state := { mgr : manager; world : W; console : list log_entry }.

(** Computations over the state that return or throw. *)
Definition M (A : Type) : Type := state -> outcome A * state.

#[global] Instance M_ret : MRet M := fun A a s => (Returned a, s).
#[global] Instance M_bind : MBind M := fun A B f m s =>
  match m s with
  | (Returned a, s') => f a s'
  | (Threw e, s') => (Threw e, s')
  end.

Definition throw {A : Type} (e : thrown) : M A := fun s => (Threw e, s).

(** [try { body } catch (error) { handler }] *)
Definition try_catch {A : Type} (body : M A) (handler : thrown -> M A) : M A :=
  fun s =>
    match body s with
    | (Returned a, s') => (Returned a, s')
    | (Threw e, s') => handler e s'
    end.

Definition lift {A : Type} (o : outcome A) : M A := fun s => (o, s).

Definition get_manager : M manager := fun s => (Returned (mgr s), s).

Definition set_manager (m : manager) : M unit :=
  fun s => (Returned tt, {| mgr := m; world := world s; console := console s |}).

Definition log (entry : log_entry) : M unit :=
  fun s => (Returned tt, {| mgr := mgr s; world := world s;
                            console := (console s ++ [entry])%list |}).

(** [error.message] *)
Definition message_of (error : thrown) : M string :=
  match error with
  | Thrown_nullish v => throw (type_error v "message")
  | Thrown_error message => mret message
  end.

(** [for (const x of xs) await body(x)] *)
Fixpoint for_of {A : Type} (xs : list A) (body : A -> M unit) : M unit :=
  match xs with
  | [] => mret tt
  | x :: rest => body x;; for_of rest body
  end.

(** [await callback(result)] *)
Definition call (cb : callback) (payload : option P) : M (option P) :=
  fun s =>
    let '(o, w) := cb payload (world s) in
    (o, {| mgr := mgr s; world := w; console := console s |}).

(** *** registerHook, addRoute *)

Definition registerHook_on (m : manager) (hookName : string) (cb : callback) : manager :=
  {| pluginsDir := pluginsDir m; plugins := plugins m;
     hooks := <[hookName := (default [] (hooks m !! hookName) ++ [cb])%list]> (hooks m);
     routes := routes m |}.

Definition addRoute_on (m : manager) (method path : string) (handler : H) : manager :=
  {| pluginsDir := pluginsDir m; plugins := plugins m; hooks := hooks m;
     routes := (routes m ++ [{| r_method := method; r_path := path;
                                r_handler := handler |}])%list |}.

Definition registerHook (hookName : string) (cb : callback) : M unit :=
  m ← get_manager; set_manager (registerHook_on m hookName cb).

Definition addRoute (method path : string) (handler : H) : M unit :=
  m ← get_manager; set_manager (addRoute_on m method path handler).

(** *** executeHook *)

(** One turn of the loop, lines 146-155. *)
Definition hook_step (hookName : string) (result : option P) (cb : callback)
  : M (option P) :=
  try_catch
    (hookResult ← call cb result;
     match hookResult with
     | Some _ => mret hookResult
     | None => mret result
     end)
    (fun error =>
       message ← message_of error;
       log (Error_in_hook hookName message);;
       mret result).

Fixpoint hook_loop (hookName : string) (callbacks : list callback) (result : option P)
  : M (option P) :=
  match callbacks with
  | [] => mret result
  | cb :: rest =>
      result' ← hook_step hookName result cb;
      hook_loop hookName rest result'
  end.

Definition executeHook (hookName : string) (data : option P) : M (option P) :=
  m ← get_manager;
  let callbacks := default [] (hooks m !! hookName) in
  if Nat.eqb (length callbacks) 0 then mret data
  else hook_loop hookName callbacks data.

(** *** getPluginInfo, getRoutes *)

Definition getPluginInfo (m : manager) : list plugin_info :=
  map (fun kv => {| name := e_name kv.2; version := e_version kv.2;
                    description := e_description kv.2 |}) (plugins m).

Definition getRoutes (m : manager) : list route := routes m.

(** *** validatePlugin, loadPlugin, loadPlugins *)

Definition validatePlugin (plugin : nullish + plugin_module) (pluginName : string)
  : M bool :=
  match plugin with
  | inl v => throw (type_error v "init")
  | inr module =>
      match p_init module with
      | None => log (Warn_missing_init pluginName);; mret false
      | Some _ => mret true
      end
  end.

(** The calls [init] makes on the context, applied to [this]. *)
Definition apply_registration (r : registration) : M unit :=
  match r with
  | Register_hook hookName cb => registerHook hookName cb
  | Add_route method path handler => addRoute method path handler
  end.

(** A run of [init]: its calls on the context reach [this], then it
    returns or throws. *)
Definition run_init (init : json -> string -> W -> init_run) (config : json)
    (pluginDir : string) : M unit :=
  fun s =>
    let run := init config pluginDir (world s) in
    match for_of (registrations run) apply_registration
            {| mgr := mgr s; world := init_world run; console := console s |} with
    | (Returned _, s') => (init_result run, s')
    | (Threw e, s') => (Threw e, s')
    end.

(** [await plugin.init(context)] on what [require] gave. *)
Definition call_init (plugin : nullish + plugin_module) (config : json)
    (pluginDir : string) : M unit :=
  match plugin with
  | inl v => throw (type_error v "init")
  | inr module =>
      match p_init module with
      | None => throw (Thrown_error "plugin.init is not a function")
      | Some init => run_init init config pluginDir
      end
  end.

(** The object of lines 89-94. *)
Definition entry_of (plugin : nullish + plugin_module) (pluginName : string)
  : outcome plugin_entry :=
  match plugin with
  | inl v => Threw (type_error v "name")
  | inr module =>
      Returned {| e_name := or_default (p_name module) pluginName;
                  e_version := or_default (p_version module) "1.0.0";
                  e_description := or_default (p_description module) "";
                  e_module := module |}
  end.

Definition set_plugin (pluginName : string) (entry : plugin_entry) : M unit :=
  m ← get_manager;
  set_manager {| pluginsDir := pluginsDir m;
                 plugins := map_set (plugins m) pluginName entry;
                 hooks := hooks m; routes := routes m |}.

Definition loadPlugin (fs : plugins_fs) (pluginName : string) : M unit :=
  try_catch
    (m ← get_manager;
     let pluginPath := join (pluginsDir m) pluginName in
     let files := plugin_dir fs pluginName in
     if negb (has_index files) then log (Warn_no_index pluginName)
     else
       config ← match config_json files with
                | None => mret (JObject [])
                | Some (inl message) => throw (Thrown_error message)
                | Some (inr parsed) => mret parsed
                end;
       disabled ← lift (enabled_is_false config);
       if (disabled : bool) then log (Log_disabled pluginName)
       else
         plugin ← lift (index_js files);
         valid ← validatePlugin plugin pluginName;
         if negb valid then mret tt
         else
           call_init plugin config pluginPath;;
           entry ← lift (entry_of plugin pluginName);
           set_plugin pluginName entry;;
           log (Log_plugin_loaded (e_name entry) (e_version entry)))
    (fun error =>
       message ← message_of error;
       log (Error_failed_to_load pluginName message)).

(** [await fs.mkdir(this.pluginsDir, { recursive: true })] *)
Definition fs_mkdir (fs : plugins_fs) : M unit :=
  fun s =>
    let '(failure, w) := mkdir fs (world s) in
    (match failure with
     | Some message => Threw (Thrown_error message)
     | None => Returned tt
     end,
     {| mgr := mgr s; world := w; console := console s |}).

(** The filter of lines 26-28. *)
Definition pluginDirs (entries : list dirent) : list dirent :=
  List.filter
    (fun entry => d_isDirectory entry && negb (startsWith (d_name entry) "_")
                  && negb (startsWith (d_name entry) "."))
    entries.

Definition loadPlugins (fs : plugins_fs) : M unit :=
  try_catch
    (m ← get_manager;
     if negb (dir_exists fs) then
       log Log_no_plugins_directory;;
       fs_mkdir fs
     else
       entries ← match dir_entries fs with
                 | inl message => throw (Thrown_error message)
                 | inr entries => mret entries
                 end;
       log (Log_loading_plugins_from (pluginsDir m));;
       for_of (pluginDirs entries) (fun dir => loadPlugin fs (d_name dir));;
       m' ← get_manager;
       log (Log_loaded_plugins (length (plugins m'))))
    (fun error =>
       message ← message_of error;
       log (Error_loading_plugins message)).

(** The state with another manager, another world, one more console line. *)
Definition with_manager (m : manager) (s : state) : state :=
  {| mgr := m; world := world s; console := console s |}.

Definition with_world (w : W) (s : state) : state :=
  {| mgr := mgr s; world := w; console := console s |}.

Definition with_log (entry : log_entry) (s : state) : state :=
  {| mgr := mgr s; world := world s; console := (console s ++ [entry])%list |}.

(** [callbacks.forEach(cb => manager.registerHook(hookName, cb))] *)
Definition register_all (m : manager) (hookName : string) (callbacks : list callback)
  : manager :=
  fold_left (fun m cb => registerHook_on m hookName cb) callbacks m.

(** A plugin directory whose module has no [init] function; nothing else
    is wrong with it. *)
Definition lacks_init (files : plugin_files) (module : plugin_module) : Prop :=
  has_index files = true
  /\ (config_json files = None
      \/ exists config, config_json files = Some (inr config)
                        /\ enabled_is_false config = Returned false)
  /\ index_js files = Returned (inr module)
  /\ p_init module = None.

(** What [getPluginInfo] shows of a module loaded from [pluginName]. *)
Definition info_of (module : plugin_module) (pluginName : string) : plugin_info :=
  {| name := or_default (p_name module) pluginName;
     version := or_default (p_version module) "1.0.0";
     description := or_default (p_description module) "" |}.

(** A plugin directory whose plugin loads: [index.js] is there and exports
    [module] with an [init] that returns, the configuration (if any) parses
    and does not disable it. *)
Definition well_formed (files : plugin_files) (module : plugin_module)
    (init : json -> string -> W -> init_run) (config : json)
    (pluginDir : string) (w : W) : Prop :=
  has_index files = true
  /\ (config_json files = None /\ config = JObject []
      \/ config_json files = Some (inr config))
  /\ enabled_is_false config = Returned false
  /\ index_js files = Returned (inr module)
  /\ p_init module = Some init
  /\ init_result (init config pluginDir w) = Returned tt.

End Manager.

Arguments mgr {P W H} s.
Arguments world {P W H} s.
Arguments console {P W H} s.
Arguments plugins {P W H} m.
Arguments hooks {P W H} m.
Arguments routes {P W H} m.
Arguments pluginsDir {P W H} m.
Arguments has_index {P W H} p.
Arguments config_json {P W H} p.
Arguments index_js {P W H} p.
Arguments dir_entries {P W H} p.
Arguments dir_exists {P W H} p.
Arguments mkdir {P W H} p w.
Arguments fs_mkdir {P W H} fs _.
Arguments plugin_dir {P W H} p pluginName.
Arguments p_name {P W H} p.
Arguments p_version {P W H} p.
Arguments p_description {P W H} p.
Arguments p_init {P W H} p.
Arguments e_name {P W H} p.
Arguments e_version {P W H} p.
Arguments e_description {P W H} p.
Arguments e_module {P W H} p.
Arguments registrations {P W H} i.
Arguments init_result {P W H} i.
Arguments init_world {P W H} i.
Arguments for_of {P W H A} xs body _.
Arguments apply_registration {P W H} r _.
Arguments run_init {P W H} init config pluginDir _.
Arguments call_init {P W H} plugin config pluginDir _.
Arguments entry_of {P W H} plugin pluginName.
Arguments set_plugin {P W H} pluginName entry _.
Arguments validatePlugin {P W H} plugin pluginName _.
Arguments message_of {P W H} error _.
Arguments log {P W H} entry _.
Arguments throw {P W H A} e _.
Arguments try_catch {P W H A} body handler _.
Arguments lift {P W H A} o _.
Arguments get_manager {P W H} _.
Arguments set_manager {P W H} m _.
Arguments call {P W H} cb payload _.
Arguments Register_hook {P W H} hookName cb.
Arguments Add_route {P W H} method path handler.
Arguments constructor {P W H} pluginsDir.
Arguments loadPlugin {P W H} fs pluginName _.
Arguments loadPlugins {P W H} fs _.
Arguments executeHook {P W H} hookName data _.
Arguments hook_step {P W H} hookName result cb _.
Arguments hook_loop {P W H} hookName callbacks result _.
Arguments getPluginInfo {P W H} m.
Arguments getRoutes {P W H} m.
Arguments registerHook_on {P W H} m hookName cb.
Arguments addRoute_on {P W H} m method path handler.
Arguments register_all {P W H} m hookName callbacks.
Arguments with_manager {P W H} m s.
Arguments with_world {P W H} w s.
Arguments with_log {P W H} entry s.
Arguments well_formed {P W H} files module init config pluginDir w.
Arguments lacks_init {P W H} files module.
Arguments info_of {P W H} module pluginName.

(** *** Lexicographic order of directory names

    The order of [strcmp] on the bytes of the names, in which [fs.readdir]
    lists a directory. *)

Definition name_le (a b : dirent) : Prop := String.leb (d_name a) (d_name b) = true.

Definition lexicographic (dirs : list dirent) : Prop := StronglySorted name_le dirs.

(** [name] begins with the character [c]. *)
Definition begins_with (c : ascii) (name : string) : Prop :=
  exists rest, name = String c rest.

(** *** Three callbacks on one hook

    Payloads are numbers; the world is the list of calls made so far, each
    with the payload it was given. *)

Definition calls : Type := list (string * option nat).

Definition increment : callback nat calls :=
  fun payload w =>
    (Returned (Some (S (default 0 payload))), (w ++ [("increment", payload)])%list).

Definition failing (e : thrown) : callback nat calls :=
  fun payload w => (Threw e, (w ++ [("failing", payload)])%list).

Definition observer : callback nat calls :=
  fun payload w => (Returned None, (w ++ [("observer", payload)])%list).

Definition three_callbacks (e : thrown) : state nat calls unit :=
  {| mgr := register_all (constructor "/app/plugins") "beforeUpload"
              [increment; failing e; observer];
     world := []; console := [] |}.

(** *** A plugins directory with one broken and one working plugin *)

Definition working_module : plugin_module nat calls unit :=
  {| p_name := Some "Audit log"; p_version := None; p_description := None;
     p_init := Some (fun _ _ w =>
       {| registrations := [Register_hook "afterUpload" observer];
          init_result := Returned tt; init_world := w |}) |}.

Definition no_init_module : plugin_module nat calls unit :=
  {| p_name := Some "Broken"; p_version := Some "0.1.0"; p_description := None;
     p_init := None |}.

Definition throwing_init_module (e : thrown) : plugin_module nat calls unit :=
  {| p_name := Some "Broken"; p_version := Some "0.1.0"; p_description := None;
     p_init := Some (fun _ _ w =>
       {| registrations := []; init_result := Threw e; init_world := w |}) |}.

Definition files_of (module : plugin_module nat calls unit)
  : plugin_files nat calls unit :=
  {| has_index := true; config_json := None; index_js := Returned (inr module) |}.

(** [broken] comes first in the enumeration, [working] second. *)
Definition broken_then_working (broken : plugin_module nat calls unit)
  : plugins_fs nat calls unit :=
  {| dir_exists := true; mkdir := fun w => (None, w);
     dir_entries := inr [ {| d_name := "broken"; d_isDirectory := true |};
                          {| d_name := "working"; d_isDirectory := true |} ];
     plugin_dir := fun pluginName =>
       if String.eqb pluginName "broken" then files_of broken
       else files_of working_module |}.

(** A plugins directory whose only plugin is switched off in its
    [config.json]. *)
Definition disabled_config : json := JObject [("enabled", JBool false)].

Definition only_disabled : plugins_fs nat calls unit :=
  {| dir_exists := true; mkdir := fun w => (None, w);
     dir_entries := inr [ {| d_name := "working"; d_isDirectory := true |} ];
     plugin_dir := fun _ =>
       {| has_index := true; config_json := Some (inr disabled_config);
          index_js := Returned (inr working_module) |} |}.

Definition fresh : state nat calls unit :=
  {| mgr := constructor "/app/plugins"; world := []; console := [] |}.

End PluginManager.

(** ** Node's [path.dirname], POSIX flavour

    The loop of [path.dirname] walks from the last character down to index
    1: it skips the slashes at the end, then the last name, and cuts in
    front of the slash it stops at. *)

Module NodeDirname.
Import JsString.

Fixpoint drop_while (p : ascii -> bool) (l : list ascii) : list ascii :=
  match l with
  | [] => []
  | c :: rest => if p c then drop_while p rest else l
  end.

Definition dirname (path : string) : string :=
  match path with
  | EmptyString => "."
  | String first rest =>
      let hasRoot := is_slash first in
      (* the characters at indices length-1 down to 1 *)
      let backwards := rev (list_ascii_of_string rest) in
      let after_slashes := drop_while is_slash backwards in
      let after_name := drop_while (fun c => negb (is_slash c)) after_slashes in
      match after_name with
      | [] => if hasRoot then "/" else "."          (* end === -1 *)
      | _ :: before =>
          if hasRoot && Nat.eqb (length before) 0 then "//"   (* end === 1 *)
          else String first (string_of_list_ascii (rev before))
      end
  end.

End NodeDirname.

(** ** server.js: the paths the folder and file routes work on

    What the handlers of POST, DELETE and PUT /api/folders, GET
    /api/download/:filename and DELETE /api/files/:filename compute before
    they touch the file system: the answer they give up with, or the paths
    they go on to use. *)

Module Routes.
Import JsString NodePath NodeDirname PathSandbox.

(** [res.status(status).json({ error })] *)
Record response := { status : nat; error : string }.

(** [error.message] of what validatePath throws. *)
Definition error_message (e : path_error) : string :=
  match e with
  | Invalid_path => "Invalid path"
  | Path_outside_storage_directory => "Path outside storage directory"
  end.

(** The catch block of the folder routes. *)
Definition folder_failure (failure : string) (e : path_error) : response :=
  if includes (error_message e) "Invalid path"
  then {| status := 400; error := error_message e |}
  else {| status := 500; error := failure |}.

(** [name.includes('/') || name.includes('\\') || name === '.' || name === '..'] *)
Definition invalid_folder_name (name : string) : bool :=
  includes name "/" || includes name "\" || String.eqb name "." || String.eqb name "..".

(** [a || b] on a string that may be missing. *)
Definition or_else (a : option string) (b : string) : string :=
  match a with
  | Some s => if String.eqb s "" then b else s
  | None => b
  end.

(** POST /api/folders, lines 260-277: the folder to create. [None] stands
    for a field that is missing or not a string. *)
Definition newFolderPath (UPLOAD_DIR : string) (folderPath name : option string)
  : response + string :=
  match name with
  | None => inl {| status := 400; error := "Folder name is required" |}
  | Some name =>
      if String.eqb name "" then
        inl {| status := 400; error := "Folder name is required" |}
      else if invalid_folder_name name then
        inl {| status := 400; error := "Invalid folder name" |}
      else
        match validatePath UPLOAD_DIR (or_else folderPath "/") with
        | inl e => inl (folder_failure "Failed to create folder" e)
        | inr parentPath => inr (join parentPath name)
        end
  end.

(** DELETE /api/folders/*, lines 298-306: the folder to remove. *)
Definition deleteFolderPath (UPLOAD_DIR folderPath : string) : response + string :=
  if String.eqb folderPath "" then
    inl {| status := 400; error := "Folder path is required" |}
  else
    match validatePath UPLOAD_DIR folderPath with
    | inl e => inl (folder_failure "Failed to delete folder" e)
    | inr fullPath => inr fullPath
    end.

(** PUT /api/folders/*, lines 331-346: the folder to rename and its new
    path. *)
Definition renamePaths (UPLOAD_DIR folderPath : string) (newName : option string)
  : response + (string * string) :=
  match newName with
  | None => inl {| status := 400; error := "New folder name is required" |}
  | Some newName =>
      if String.eqb newName "" then
        inl {| status := 400; error := "New folder name is required" |}
      else if invalid_folder_name newName then
        inl {| status := 400; error := "Invalid folder name" |}
      else
        match validatePath UPLOAD_DIR folderPath with
        | inl e => inl (folder_failure "Failed to rename folder" e)
        | inr oldPath =>
            let parentDir := dirname oldPath in
            inr (oldPath, join parentDir newName)
        end
  end.


End Routes.

(** ** Views of the tree used to state what the summary and the listing
    depend on *)

Module FolderViews.
Import FolderSummarizer.

(** [f] applied to every entry of a readable directory. *)
Definition map_entries (f : node -> node) (n : node) : node :=
  match n with
  | Directory size mtime (inr items) =>
      Directory size mtime (inr (map (fun item => (item.1, f item.2)) items))
  | _ => n
  end.

(** [f] applied to the entries of the entries of [folder]. *)
Definition map_grandchildren (f : node -> node) (folder : node) : node :=
  map_entries (map_entries f) folder.

(** A subdirectory with whatever is inside it made unreadable. *)
Definition lock (n : node) : node :=
  match n with
  | Directory size mtime _ => Directory size mtime (inl EACCES)
  | _ => n
  end.

(** The summary of a directory all of whose children can be read: the
    number of its children and the running total of the sizes added. *)
Definition summary_of (n : node) : option metadata :=
  match n with
  | Directory _ _ (inr items) =>
      if forallb (fun item => child_ok item.2) items
      then Some {| itemCount := length items;
                   totalSize := running_total 0 (added_sizes items) |}
      else None
  | _ => None
  end.

(** The entry of the listing for an item [stat] succeeds on. *)
Definition describe (item : string * node) : file_info :=
  match item.2 with
  | File size mtime =>
      {| fi_name := item.1; fi_size := size; fi_modified := mtime;
         fi_isDirectory := false; fi_itemCount := None |}
  | Directory size mtime _ =>
      match summary_of item.2 with
      | Some summary =>
          {| fi_name := item.1; fi_size := totalSize summary; fi_modified := mtime;
             fi_isDirectory := true; fi_itemCount := Some (itemCount summary) |}
      | None => degraded_info item.1 item.2
      end
  | Broken _ => degraded_info item.1 item.2
  end.

End FolderViews.

(** ** What a run of registrations amounts to *)

Module PluginViews.
Import PluginManager.

Section Views.
Variables P W H : Type.

(** The callbacks a list of registrations puts under [hookName], in order. *)
Fixpoint callbacks_of (hookName : string) (regs : list (registration P W H))
  : list (callback P W) :=
  match regs with
  | [] => []
  | Register_hook name cb :: rest =>
      if String.eqb name hookName then cb :: callbacks_of hookName rest
      else callbacks_of hookName rest
  | Add_route _ _ _ :: rest => callbacks_of hookName rest
  end.

(** The routes a list of registrations adds, in order. *)
Fixpoint routes_of (regs : list (registration P W H)) : list (route H) :=
  match regs with
  | [] => []
  | Register_hook _ _ :: rest => routes_of rest
  | Add_route method path handler :: rest =>
      {| r_method := method; r_path := path; r_handler := handler |} :: routes_of rest
  end.

(** The names under which plugins are recorded. *)
Definition plugin_names (m : manager P W H) : list string := map fst (plugins m).

(** [config] is the configuration loadPlugin reads for these files (the
    empty object when there is no [config.json]) and it does not switch the
    plugin off. *)
Definition config_allows (files : plugin_files P W H) (config : json) : Prop :=
  (config_json files = None /\ config = JObject []
   \/ config_json files = Some (inr config))
  /\ enabled_is_false config = Returned false.

(** loadPlugin gets as far as calling [init]. *)
Definition reaches_init (files : plugin_files P W H) (module : plugin_module P W H)
    (init : json -> string -> W -> init_run P W H) (config : json) : Prop :=
  has_index files = true
  /\ config_allows files config
  /\ index_js files = Returned (inr module)
  /\ p_init module = Some init.

End Views.

Arguments config_allows {P W H} files config.
Arguments reaches_init {P W H} files module init config.
Arguments callbacks_of {P W H} hookName regs.
Arguments routes_of {P W H} regs.
Arguments plugin_names {P W H} m.

End PluginViews.

(** ** More plugin directories to try things on *)

Module MoreScenarios.
Import PluginManager.

(** A plugin whose [init] registers a hook and a route and then fails. *)
Definition half_init (config : json) (pluginDir : string) (w : calls)
  : init_run nat calls unit :=
  {| registrations := [Register_hook "afterUpload" observer;
                       Add_route "GET" "/api/thumbnails" tt];
     init_result := Threw (Thrown_error "no database");
     init_world := w |}.

Definition half_initialised : plugin_module nat calls unit :=
  {| p_name := Some "Thumbnails"; p_version := None; p_description := None;
     p_init := Some half_init |}.

(** A plugin directory whose [config.json] is not valid JSON. *)
Definition unparsable_config : plugins_fs nat calls unit :=
  {| dir_exists := true; mkdir := fun w => (None, w);
     dir_entries := inr [ {| d_name := "working"; d_isDirectory := true |} ];
     plugin_dir := fun _ =>
       {| has_index := true;
          config_json := Some (inl "Unexpected token } in JSON at position 12");
          index_js := Returned (inr working_module) |} |}.



End MoreScenarios.

(** ** The browser side: breadcrumbs, parent directory, escaping

    The functions of the page script that compute on strings:
    buildBreadcrumbs, the parent path of displayFiles and escapeHtml. *)

Module Frontend.
Import JsString.

Record crumb := { c_name : string; c_path : string }.

Definition home : crumb := {| c_name := "Home"; c_path := "/" |}.

(** The loop of buildBreadcrumbs: [currentPath += '/' + part] and one crumb
    a part. *)
Fixpoint push_crumbs (currentPath : string) (parts : list string) : list crumb :=
  match parts with
  | [] => []
  | part :: rest =>
      let currentPath := currentPath ++ "/" ++ part in
      {| c_name := part; c_path := currentPath |} :: push_crumbs currentPath rest
  end.

(** [path.split('/').filter(p => p)]: the non-empty pieces. *)
Definition parts_of (path : string) : list string :=
  List.filter (fun p => negb (String.eqb p "")) (split_slash path).

(** A piece kept by [filter(p => p)]: not empty, no slash inside. *)
Definition piece (p : string) : Prop := p <> "" /\ slash_free p = true.

Definition buildBreadcrumbs (path : string) : list crumb :=
  if String.eqb path "/" then [home]
  else home :: push_crumbs "" (parts_of path).

(** displayFiles: [currentPath.split('/').slice(0, -1).join('/') || '/'] *)
Definition parentPath (currentPath : string) : string :=
  let joined := join_slash (removelast (split_slash currentPath)) in
  if String.eqb joined "" then "/" else joined.

(** The characters escapeHtml replaces. *)
Definition ampersand : ascii := "&"%char.
Definition less_than : ascii := "<"%char.
Definition greater_than : ascii := ">"%char.
Definition double_quote : ascii := "034"%char.
Definition single_quote : ascii := "'"%char.

(** [map[m]] for a character the pattern matches, the character itself
    otherwise. *)
Definition escape_char (c : ascii) : string :=
  if Ascii.eqb c ampersand then "&amp;"
  else if Ascii.eqb c less_than then "&lt;"
  else if Ascii.eqb c greater_than then "&gt;"
  else if Ascii.eqb c double_quote then "&quot;"
  else if Ascii.eqb c single_quote then "&#039;"
  else String c "".

(** The global replace of escapeHtml, character by character. *)
Fixpoint escapeHtml (text : string) : string :=
  match text with
  | EmptyString => EmptyString
  | String c rest => escape_char c ++ escapeHtml rest
  end.

(** None of [<], [>], the double and the single quote occurs in [s]. *)
Fixpoint no_markup (s : string) : bool :=
  match s with
  | EmptyString => true
  | String c rest =>
      negb (Ascii.eqb c less_than || Ascii.eqb c greater_than
            || Ascii.eqb c double_quote || Ascii.eqb c single_quote)
      && no_markup rest
  end.

End Frontend.

(** ** The File Validator plugin: its beforeUpload callback

    The callback [init] registers, as a function of the three constants it
    closes over: the two extension lists (arrays of strings) and the mode.
    [String.prototype.toLowerCase] is a parameter. *)

Module FileValidator.
Import PluginManager.

(** [s.split(sep)] for a one-character separator. *)
Fixpoint split_on (sep : ascii) (s : string) : list string :=
  match s with
  | EmptyString => [EmptyString]
  | String c s' =>
      if Ascii.eqb c sep then EmptyString :: split_on sep s'
      else match split_on sep s' with
           | piece :: pieces => String c piece :: pieces
           | [] => [String c EmptyString]
           end
  end.

(** [items.join(', ')] *)
Fixpoint join_comma (items : list string) : string :=
  match items with
  | [] => EmptyString
  | [item] => item
  | item :: rest => item ++ ", " ++ join_comma rest
  end.

(** [items.includes(x)] *)
Definition array_includes (items : list string) (x : string) : bool :=
  existsb (String.eqb x) items.

(** An uploaded file as multer describes it, and the payload of the
    beforeUpload hook ([req] left out). *)
Record upload_file := { originalname : string; size : Z }.
Record upload := { files : list upload_file; path : string }.

Section Validator.

Variable toLowerCase : string -> string.
Variable W : Type.
Variables allowedExtensions blockedExtensions : list string.
Variable mode : string.

(** [file.originalname.split('.').pop().toLowerCase()] *)
Definition extension (file : upload_file) : string :=
  toLowerCase (List.last (split_on "."%char (originalname file)) EmptyString).

(** The body of the loop for one file: the message of the Error it
    throws, if it throws. *)
Definition check_file (file : upload_file) : option string :=
  let ext := extension file in
  if String.eqb mode "whitelist" && Nat.ltb 0 (length allowedExtensions) then
    if negb (array_includes allowedExtensions ext) then
      Some ("File type ." ++ ext ++ " is not allowed. Allowed types: "
            ++ join_comma allowedExtensions)
    else None
  else if String.eqb mode "blacklist" && Nat.ltb 0 (length blockedExtensions) then
    if array_includes blockedExtensions ext then
      Some ("File type ." ++ ext ++ " is blocked")
    else None
  else None.

(** [for (const file of files) { ... }]: the first Error thrown. *)
Fixpoint check_files (files : list upload_file) : option string :=
  match files with
  | [] => None
  | file :: rest =>
      match check_file file with
      | Some message => Some message
      | None => check_files rest
      end
  end.

(** The callback: destructuring [undefined] throws; otherwise it throws
    for the first file it refuses or returns [data]. *)
Definition validator : callback upload W :=
  fun payload w =>
    match payload with
    | None =>
        (Threw (Thrown_error
                  "Cannot destructure property 'files' of 'data' as it is undefined."),
         w)
    | Some data =>
        match check_files (files data) with
        | Some message => (Threw (Thrown_error message), w)
        | None => (Returned (Some data), w)
        end
    end.

(** What the plugin is meant to let through. *)
Definition accepted (file : upload_file) : Prop :=
  (mode = "whitelist" -> allowedExtensions <> [] ->
   In (extension file) allowedExtensions)
  /\ (mode = "blacklist" -> blockedExtensions <> [] ->
      ~ In (extension file) blockedExtensions).

End Validator.

(** [toLowerCase] on ASCII text: the letters A to Z become a to z. *)
Definition lower_ascii (c : ascii) : ascii :=
  let n := nat_of_ascii c in
  if Nat.leb 65 n && Nat.leb n 90 then ascii_of_nat (n + 32) else c.

Fixpoint toLowerCase_ascii (s : string) : string :=
  match s with
  | EmptyString => EmptyString
  | String c rest => String (lower_ascii c) (toLowerCase_ascii rest)
  end.

(** A validator that blocks [exe] and [bat], and an upload it refuses. *)
Definition block_executables : callback upload unit :=
  validator toLowerCase_ascii unit [] ["exe"; "bat"] "blacklist".

Definition setup_exe : upload :=
  {| files := [ {| originalname := "notes.txt"; size := 120 |};
                {| originalname := "setup.exe"; size := 4096 |} ];
     path := "/" |}.

Definition validating : state upload unit unit :=
  {| mgr := registerHook_on (constructor "/app/plugins") "beforeUpload" block_executables;
     world := tt; console := [] |}.

End FileValidator.

(** ** Facts about the string primitives *)

Section StringFacts.
Import JsString.

Lemma append_nil_l (s : string) : "" ++ s = s.
Proof. reflexivity. Qed.

Lemma append_cons (c : ascii) (a b : string) : String c a ++ b = String c (a ++ b).
Proof. reflexivity. Qed.

Lemma append_empty_r (s : string) : s ++ "" = s.
Proof.
  induction s as [|c s IH]; [reflexivity|]. now rewrite append_cons, IH.
Qed.

Lemma append_assoc (a b c : string) : (a ++ b) ++ c = a ++ (b ++ c).
Proof.
  induction a as [|x a IH]; [reflexivity|]. now rewrite !append_cons, IH.
Qed.

Lemma prefix_refl (s : string) : String.prefix s s = true.
Proof.
  induction s as [|c s IH]; simpl; [reflexivity|].
  destruct (ascii_dec c c); [exact IH | congruence].
Qed.

Lemma prefix_append (p s : string) : String.prefix p (p ++ s) = true.
Proof.
  induction p as [|c p IH]; [now destruct s|]. rewrite append_cons. simpl.
  destruct (ascii_dec c c); [exact IH | congruence].
Qed.

Lemma prefix_append_both (a p s : string) :
  String.prefix (a ++ p) (a ++ s) = String.prefix p s.
Proof.
  induction a as [|c a IH]; [reflexivity|]. rewrite !append_cons. simpl.
  destruct (ascii_dec c c); [exact IH | congruence].
Qed.

Lemma prefix_cons_inv (c : ascii) (p s : string) :
  String.prefix (String c p) s = true -> exists s', s = String c s' /\ String.prefix p s' = true.
Proof.
  destruct s as [|d s]; simpl; [discriminate|].
  destruct (ascii_dec c d) as [->|]; [|discriminate].
  intros H. now exists s.
Qed.

Lemma split_slash_nonempty (s : string) : split_slash s <> [].
Proof.
  induction s as [|c s IH]; simpl; [discriminate|].
  destruct (is_slash c); [discriminate|].
  destruct (split_slash s); discriminate.
Qed.

Lemma is_slash_true (c : ascii) : is_slash c = true -> c = slash.
Proof. unfold is_slash. apply Ascii.eqb_eq. Qed.

(** Cutting at slashes distributes over a slash in the middle. *)
Lemma split_slash_app (a b : string) :
  split_slash (a ++ String slash b) = (split_slash a ++ split_slash b)%list.
Proof.
  induction a as [|c a IH].
  - reflexivity.
  - rewrite append_cons. simpl. rewrite IH. destruct (is_slash c); [reflexivity|].
    pose proof (split_slash_nonempty a) as Hne.
    destruct (split_slash a); [congruence | reflexivity].
Qed.

Lemma split_slash_slash_free (s : string) :
  slash_free s = true -> split_slash s = [s].
Proof.
  induction s as [|c s IH]; simpl; [reflexivity|].
  intros [Hc Hs]%andb_prop. apply negb_true_iff in Hc. rewrite Hc.
  now rewrite (IH Hs).
Qed.

Lemma split_slash_segments_slash_free (s : string) :
  Forall (fun seg => slash_free seg = true) (split_slash s).
Proof.
  induction s as [|c s IH]; simpl.
  - constructor; [reflexivity | constructor].
  - destruct (is_slash c) eqn:Hc.
    + constructor; [reflexivity | exact IH].
    + pose proof (split_slash_nonempty s) as Hne.
      destruct (split_slash s) as [|seg segs]; [congruence|].
      inversion IH; subst. constructor; [|assumption].
      simpl. now rewrite Hc.
Qed.

Lemma split_join_slash (segs : list string) :
  segs <> [] -> Forall (fun seg => slash_free seg = true) segs ->
  split_slash (join_slash segs) = segs.
Proof.
  induction segs as [|seg rest IH]; [congruence|].
  intros _ Hall. inversion Hall as [|? ? Hseg Hrest]; subst.
  destruct rest as [|seg' rest'].
  - simpl. now apply split_slash_slash_free.
  - change (join_slash (seg :: seg' :: rest'))
      with (seg ++ String slash (join_slash (seg' :: rest'))).
    rewrite split_slash_app, IH; [|discriminate|assumption].
    now rewrite split_slash_slash_free.
Qed.

(** The first segment of a string is a prefix of it. *)
Lemma split_slash_head_prefix (s seg : string) (segs : list string) :
  split_slash s = seg :: segs -> String.prefix seg s = true.
Proof.
  revert seg segs. induction s as [|c s IH]; simpl; intros seg segs H.
  - now inversion H.
  - destruct (is_slash c).
    + now inversion H.
    + destruct (split_slash s) as [|seg0 segs0] eqn:Hs.
      * inversion H; subst. simpl.
        destruct (ascii_dec c c); [|congruence]. now destruct s.
      * inversion H; subst. simpl.
        destruct (ascii_dec c c); [|congruence]. eapply IH; reflexivity.
Qed.

Lemma includes_tail (c : ascii) (s p : string) :
  includes s p = true -> includes (String c s) p = true.
Proof. intros H. cbn [includes]. rewrite H. apply orb_true_r. Qed.

Lemma includes_prefix (s p : string) :
  String.prefix p s = true -> includes s p = true.
Proof. intros H. destruct s; cbn [includes]; unfold startsWith; rewrite H; reflexivity. Qed.

(** A [..] segment shows up as the substring [..]. *)
Lemma dotdot_segment_includes (s : string) :
  In ".." (split_slash s) -> includes s ".." = true.
Proof.
  induction s as [|c s IH]; simpl split_slash.
  - intros [H|[]]. discriminate.
  - destruct (is_slash c).
    + intros [H|H]; [discriminate|]. apply includes_tail. now apply IH.
    + destruct (split_slash s) as [|seg0 segs0] eqn:Hs.
      * intros [H|[]]. discriminate.
      * intros [H|H].
        -- apply includes_prefix. inversion H; subst.
           apply split_slash_head_prefix in Hs.
           simpl. destruct (ascii_dec "." "."); [exact Hs | congruence].
        -- apply includes_tail, IH. now right.
Qed.

Lemma drop_trailing_keeps_head (c : ascii) (s : string) :
  is_slash c = false ->
  exists rest, drop_trailing_slashes (String c s) = String c rest.
Proof.
  intros Hc. simpl. destruct (drop_trailing_slashes s).
  - rewrite Hc. now exists "".
  - eexists; reflexivity.
Qed.

Lemma drop_leading_head (s : string) :
  drop_leading_slashes s = "" \/
  exists c rest, drop_leading_slashes s = String c rest /\ is_slash c = false.
Proof.
  induction s as [|c s IH]; simpl; [now left|].
  destruct (is_slash c) eqn:Hc; [exact IH|]. right. now exists c, s.
Qed.

(** What is left after stripping never starts with a slash. *)
Lemma strip_slashes_head (s : string) :
  strip_slashes s = "" \/
  exists c rest, strip_slashes s = String c rest /\ is_slash c = false.
Proof.
  unfold strip_slashes.
  destruct (drop_leading_head s) as [->|(c & rest & -> & Hc)]; [now left|].
  right. destruct (drop_trailing_keeps_head c rest Hc) as [r ->]. now exists c, r.
Qed.

End StringFacts.

(** ** Facts about path normalisation *)

Section PathFacts.
Import JsString NodePath.

Lemma normalize_from_app (b : bool) (kept xs ys : list string) :
  normalize_from b kept (xs ++ ys)%list = normalize_from b (normalize_from b kept xs) ys.
Proof. unfold normalize_from. apply fold_left_app. Qed.

Lemma normalize_step_plain (b : bool) (kept : list string) (seg : string) :
  seg <> ".." ->
  normalize_step b kept seg = if proper_segment seg then seg :: kept else kept.
Proof.
  intros Hdd. unfold normalize_step, proper_segment.
  destruct (String.eqb seg "" || String.eqb seg "."); [reflexivity|].
  simpl. destruct (String.eqb_spec seg ".."); [contradiction | reflexivity].
Qed.

(** Without [..] normalisation only pushes. *)
Lemma normalize_from_no_dotdot (b : bool) (segs kept : list string) :
  ~ In ".." segs ->
  normalize_from b kept segs = (rev (List.filter proper_segment segs) ++ kept)%list.
Proof.
  revert kept. induction segs as [|seg segs IH]; intros kept Hno; [reflexivity|].
  change (normalize_from b kept (seg :: segs))
    with (normalize_from b (normalize_step b kept seg) segs).
  rewrite IH by (intros H; apply Hno; now right).
  rewrite normalize_step_plain by (intros ->; apply Hno; now left).
  simpl. destruct (proper_segment seg); [|reflexivity].
  simpl. now rewrite <- app_assoc.
Qed.

Lemma normalizeSegments_app_no_dotdot (b : bool) (xs ys : list string) :
  ~ In ".." ys ->
  normalizeSegments b (xs ++ ys)%list
  = (normalizeSegments b xs ++ List.filter proper_segment ys)%list.
Proof.
  intros Hno. unfold normalizeSegments.
  rewrite normalize_from_app, normalize_from_no_dotdot by assumption.
  now rewrite rev_app_distr, rev_involutive.
Qed.

Lemma normalize_step_false_plain (kept : list string) (seg : string) :
  Forall plain_segment kept -> slash_free seg = true ->
  Forall plain_segment (normalize_step false kept seg).
Proof.
  intros Hk Hs. unfold normalize_step.
  destruct (String.eqb seg "" || String.eqb seg ".") eqn:Hp; [assumption|].
  destruct (String.eqb_spec seg "..") as [->|Hdd].
  - destruct kept as [|top below]; [constructor|].
    inversion Hk as [|? ? Htop Hbelow]; subst.
    destruct (String.eqb_spec top "..") as [->|]; [|assumption].
    destruct Htop as (_ & Hne & _). congruence.
  - constructor; [|assumption]. unfold plain_segment, proper_segment.
    now rewrite Hp.
Qed.

(** An absolute path never keeps a [..], nor an empty or [.] segment. *)
Lemma normalize_from_false_plain (segs kept : list string) :
  Forall plain_segment kept -> Forall (fun seg => slash_free seg = true) segs ->
  Forall plain_segment (normalize_from false kept segs).
Proof.
  revert kept. induction segs as [|seg segs IH]; intros kept Hk Hs; [assumption|].
  inversion Hs; subst.
  change (normalize_from false kept (seg :: segs))
    with (normalize_from false (normalize_step false kept seg) segs).
  apply IH; [|assumption]. now apply normalize_step_false_plain.
Qed.

Lemma normalizeSegments_false_plain (s : string) :
  Forall plain_segment (normalizeSegments false (split_slash s)).
Proof.
  unfold normalizeSegments. apply Forall_rev.
  apply normalize_from_false_plain; [constructor|].
  apply split_slash_segments_slash_free.
Qed.

Lemma plain_filter_id (segs : list string) :
  Forall plain_segment segs -> List.filter proper_segment segs = segs.
Proof.
  induction 1 as [|seg segs (Hp & _ & _) _ IH]; [reflexivity|].
  simpl. now rewrite Hp, IH.
Qed.

Lemma plain_no_dotdot (segs : list string) :
  Forall plain_segment segs -> ~ In ".." segs.
Proof.
  intros Hall Hin. rewrite List.Forall_forall in Hall.
  destruct (Hall _ Hin) as (_ & Hne & _). congruence.
Qed.

Lemma plain_slash_free (segs : list string) :
  Forall plain_segment segs -> Forall (fun seg => slash_free seg = true) segs.
Proof. intros Hall. eapply List.Forall_impl; [|exact Hall]. now intros seg (_ & _ & H). Qed.

(** Normalising plain segments between empty ones gives them back. *)
Lemma normalizeSegments_plain (b : bool) (segs tail : list string) :
  Forall plain_segment segs -> tail = [] \/ tail = [""] ->
  normalizeSegments b ("" :: segs ++ tail)%list = segs.
Proof.
  intros Hall Htail. unfold normalizeSegments.
  rewrite normalize_from_no_dotdot.
  - rewrite app_nil_r, rev_involutive.
    change (List.filter proper_segment ("" :: segs ++ tail)%list)
      with (List.filter proper_segment (segs ++ tail)%list).
    rewrite List.filter_app, plain_filter_id by assumption.
    destruct Htail as [->| ->]; simpl; apply app_nil_r.
  - intros [H|H]; [discriminate|]. apply in_app_or in H as [H|H].
    + now apply (plain_no_dotdot segs).
    + destruct Htail as [->| ->]; [destruct H | destruct H as [H|[]]; discriminate].
Qed.

Lemma join_slash_cons (seg : string) (rest : list string) :
  rest <> [] -> join_slash (seg :: rest) = seg ++ String slash (join_slash rest).
Proof. destruct rest; [congruence | reflexivity]. Qed.

Lemma join_slash_empty (segs : list string) :
  Forall plain_segment segs -> join_slash segs = "" -> segs = [].
Proof.
  destruct 1 as [|seg rest (Hp & _ & _) Hrest]; [reflexivity|].
  destruct rest as [|seg' rest'].
  - simpl. intros ->. discriminate.
  - rewrite join_slash_cons by discriminate. destruct seg; discriminate.
Qed.

(** The segments of a path written from plain segments. *)
Lemma segments_of_plain (segs : list string) (trailing : bool) :
  Forall plain_segment segs -> segs <> [] ->
  segments ("/" ++ (if trailing then join_slash segs ++ "/" else join_slash segs)) = segs.
Proof.
  intros Hall Hne. unfold segments.
  change (isAbsolute ("/" ++ _)) with true.
  change ("/" ++ ?x) with (String slash x).
  cbn [split_slash]. change (is_slash slash) with true. cbv iota.
  destruct trailing.
  - change (join_slash segs ++ "/") with (join_slash segs ++ String slash "").
    rewrite split_slash_app, split_join_slash by auto using plain_slash_free.
    apply normalizeSegments_plain; auto.
  - rewrite split_join_slash by auto using plain_slash_free.
    rewrite <- (app_nil_r segs) at 1. apply normalizeSegments_plain; auto.
Qed.

(** The shape of [normalize] on an absolute path. *)
Lemma normalize_absolute (p : string) :
  isAbsolute p = true ->
  normalize p =
    match segments p with
    | [] => "/"
    | segs => "/" ++ (if ends_with_slash p then join_slash segs ++ "/" else join_slash segs)
    end.
Proof.
  intros Habs. unfold normalize, segments. rewrite Habs.
  destruct p as [|c p]; [discriminate|]. cbn [String.eqb negb].
  pose proof (normalizeSegments_false_plain (String c p)) as Hplain.
  destruct (normalizeSegments false (split_slash (String c p))) as [|seg rest] eqn:Hsegs.
  - reflexivity.
  - destruct (String.eqb_spec (join_slash (seg :: rest)) "") as [Hempty|_]; [|reflexivity].
    apply join_slash_empty in Hempty; [discriminate | assumption].
Qed.

Lemma normalize_absolute_is_absolute (p : string) :
  isAbsolute p = true -> isAbsolute (normalize p) = true.
Proof.
  intros Habs. rewrite normalize_absolute by assumption.
  now destruct (segments p).
Qed.

(** Normalising an absolute path does not change its segments. *)
Lemma segments_normalize (p : string) :
  isAbsolute p = true -> segments (normalize p) = segments p.
Proof.
  intros Habs. rewrite normalize_absolute by assumption.
  assert (Hplain : Forall plain_segment (segments p)).
  { unfold segments. rewrite Habs. apply normalizeSegments_false_plain. }
  destruct (segments p) as [|seg rest] eqn:Hsegs.
  - reflexivity.
  - apply segments_of_plain; [assumption | discriminate].
Qed.

Lemma written_plain (segs : list string) :
  Forall plain_segment segs ->
  List.filter (fun seg => negb (String.eqb seg "")) segs = segs.
Proof.
  induction 1 as [|seg segs (Hp & _ & _) _ IH]; [reflexivity|].
  simpl. unfold proper_segment in Hp.
  destruct (String.eqb seg ""); [discriminate|]. simpl. now rewrite IH.
Qed.

(** In a path written from plain segments the written segments are the
    canonical ones. *)
Lemma written_segments_of_plain (segs : list string) (trailing : bool) :
  Forall plain_segment segs -> segs <> [] ->
  written_segments
    ("/" ++ (if trailing then join_slash segs ++ "/" else join_slash segs)) = segs.
Proof.
  intros Hall Hne. unfold written_segments.
  change ("/" ++ ?x) with (String slash x).
  cbn [split_slash]. change (is_slash slash) with true. cbv iota.
  destruct trailing.
  - change (join_slash segs ++ "/") with (join_slash segs ++ String slash "").
    rewrite split_slash_app, split_join_slash by auto using plain_slash_free.
    simpl. rewrite List.filter_app, written_plain by assumption.
    simpl. apply app_nil_r.
  - rewrite split_join_slash by auto using plain_slash_free.
    simpl. now apply written_plain.
Qed.

Lemma written_segments_normalize (p : string) :
  isAbsolute p = true -> written_segments (normalize p) = segments p.
Proof.
  intros Habs. rewrite normalize_absolute by assumption.
  assert (Hplain : Forall plain_segment (segments p)).
  { unfold segments. rewrite Habs. apply normalizeSegments_false_plain. }
  destruct (segments p) as [|seg rest] eqn:Hsegs.
  - reflexivity.
  - apply written_segments_of_plain; [assumption | discriminate].
Qed.

End PathFacts.

(** ** validatePath: containment *)

Section PathSandboxFacts.
Import JsString NodePath PathSandbox.

Lemma isAbsolute_append (a b : string) :
  isAbsolute a = true -> isAbsolute (a ++ b) = true.
Proof. destruct a; [discriminate | trivial]. Qed.

Lemma strip_slashes_not_absolute (s : string) : isAbsolute (strip_slashes s) = false.
Proof.
  destruct (strip_slashes_head s) as [->|(c & rest & -> & Hc)]; [reflexivity | exact Hc].
Qed.

Lemma no_dotdot_substring_no_segment (s : string) :
  includes s ".." = false -> ~ In ".." (split_slash s).
Proof. intros Hn Hin. apply dotdot_segment_includes in Hin. congruence. Qed.

Lemma join_absolute (root cleaned : string) :
  isAbsolute root = true -> join root cleaned = normalize (joined root cleaned).
Proof.
  intros Habs. unfold join, joined.
  destruct root as [|c root]; [discriminate|]. cbn [String.eqb].
  now destruct (String.eqb cleaned "").
Qed.

Lemma joined_absolute (root cleaned : string) :
  isAbsolute root = true -> isAbsolute (joined root cleaned) = true.
Proof.
  intros Habs. unfold joined.
  destruct (String.eqb cleaned ""); [assumption | now apply isAbsolute_append].
Qed.

(** Joining a traversal-free relative path only appends segments. *)
Lemma segments_joined (root cleaned : string) :
  isAbsolute root = true -> includes cleaned ".." = false ->
  segments (joined root cleaned)
  = (segments root ++ List.filter proper_segment (split_slash cleaned))%list.
Proof.
  intros Habs Hno. unfold joined.
  destruct (String.eqb_spec cleaned "") as [->|Hne].
  - simpl. now rewrite app_nil_r.
  - unfold segments. rewrite isAbsolute_append, Habs by assumption.
    change (root ++ "/" ++ cleaned) with (root ++ String slash cleaned).
    rewrite split_slash_app.
    apply normalizeSegments_app_no_dotdot.
    now apply no_dotdot_substring_no_segment.
Qed.

Lemma segments_join (root cleaned : string) :
  isAbsolute root = true -> includes cleaned ".." = false ->
  segments (join root cleaned)
  = (segments root ++ List.filter proper_segment (split_slash cleaned))%list.
Proof.
  intros Habs Hno. rewrite join_absolute by assumption.
  rewrite segments_normalize by now apply joined_absolute.
  now apply segments_joined.
Qed.

(** The three ways [validatePath] can end. *)
Lemma validatePath_cases (root input : string) :
  (input = "" \/ input = "/") /\ validatePath root input = inr root
  \/ (input <> "" /\ input <> "/" /\ includes (strip_slashes input) ".." = true
      /\ validatePath root input = inl Invalid_path)
  \/ (input <> "" /\ input <> "/" /\ includes (strip_slashes input) ".." = false
      /\ validatePath root input =
           if startsWith (join root (strip_slashes input)) root
           then inr (join root (strip_slashes input))
           else inl Path_outside_storage_directory).
Proof.
  unfold validatePath.
  destruct (String.eqb_spec input "") as [->|Hne]; [left; auto|].
  destruct (String.eqb_spec input "/") as [->|Hns]; [left; auto|].
  right. cbn [orb]. rewrite strip_slashes_not_absolute, orb_false_r.
  destruct (includes (strip_slashes input) "..") eqn:Hinc; [left; auto|].
  right. repeat split; auto.
  now destruct (startsWith (join root (strip_slashes input)) root).
Qed.

Lemma join_slash_app_prefix (segs more : list string) (tail : string) :
  String.prefix (join_slash segs) (join_slash (segs ++ more)%list ++ tail) = true.
Proof.
  induction segs as [|seg rest IH].
  - simpl. now destruct (join_slash more ++ tail).
  - destruct rest as [|seg' rest'].
    + change (([seg] ++ more)%list) with (seg :: more).
      change (join_slash [seg]) with seg.
      destruct more as [|m more'].
      * apply prefix_append.
      * rewrite join_slash_cons by discriminate. rewrite append_assoc. apply prefix_append.
    + change (((seg :: seg' :: rest') ++ more)%list)
        with (seg :: seg' :: (rest' ++ more)%list) in *.
      rewrite (join_slash_cons seg (seg' :: rest')) by discriminate.
      rewrite (join_slash_cons seg (seg' :: _ ++ _)%list) by discriminate.
      rewrite append_assoc, prefix_append_both, append_cons.
      change (String slash ?x) with ("/" ++ x).
      rewrite prefix_append_both. exact IH.
Qed.

Lemma resolved_root_absolute (root : string) :
  resolved_root root = true -> isAbsolute root = true.
Proof. unfold resolved_root. intros ->%String.eqb_eq. reflexivity. Qed.

(** Under a resolved root the string-prefix test of [validatePath] always
    passes once the traversal test has. *)
Lemma resolved_root_startsWith (root cleaned : string) :
  resolved_root root = true -> includes cleaned ".." = false ->
  startsWith (join root cleaned) root = true.
Proof.
  intros Hres Hno. pose proof (resolved_root_absolute _ Hres) as Habs.
  rewrite join_absolute, normalize_absolute by auto using joined_absolute.
  rewrite segments_joined by assumption.
  apply String.eqb_eq in Hres. unfold startsWith.
  set (more := List.filter proper_segment (split_slash cleaned)).
  destruct (segments root ++ more)%list as [|seg rest] eqn:Hsegs.
  - apply app_eq_nil in Hsegs as [Hroot _]. rewrite Hres, Hroot. reflexivity.
  - rewrite <- Hsegs. rewrite Hres at 1. rewrite prefix_append_both.
    destruct (ends_with_slash (joined root cleaned)).
    + apply join_slash_app_prefix.
    + rewrite <- (append_empty_r (join_slash (segments root ++ more)%list)).
      apply join_slash_app_prefix.
Qed.

End PathSandboxFacts.

(** ** validatePath: the claims *)

Section PathSandboxClaims.
Import JsString NodePath PathSandbox.

Example segments_data : segments "/data" = ["data"].
Proof. reflexivity. Qed.

Example segments_data_other : segments "/data-other" = ["data-other"].
Proof. reflexivity. Qed.

Example validatePath_photos :
  validatePath "/data" "photos/vacation" = inr "/data/photos/vacation".
Proof. reflexivity. Qed.

Example validatePath_root :
  validatePath "/data" "" = inr "/data" /\ validatePath "/data" "/" = inr "/data".
Proof. split; reflexivity. Qed.

Example validatePath_traversal :
  validatePath "/data" "photos/../../../etc/passwd" = inl Invalid_path.
Proof. reflexivity. Qed.

(** With a root that is not in resolved form the prefix test is the one
    that fails. *)
Example validatePath_trailing_slash_root :
  validatePath "/data/" "." = inl Path_outside_storage_directory.
Proof. reflexivity. Qed.

(** C1: whenever validatePath accepts an input under an absolute storage
    root, the path it returns is absolute and its segment sequence begins
    with the segment sequence of the root (segment by segment, not as a
    string); so for the root /data the sibling /data-other is never
    returned. *)
Theorem validatePath_stays_under_root (root input full : string) :
  isAbsolute root = true ->
  validatePath root input = inr full ->
  isAbsolute full = true
  /\ (exists below, segments full = (segments root ++ below)%list)
  /\ (root = "/data" -> full <> "/data-other").
Proof.
  intros Habs Hok.
  assert (Hseg : exists below, segments full = (segments root ++ below)%list).
  { destruct (validatePath_cases root input)
      as [(_ & H) | [(_ & _ & _ & H) | (_ & _ & Hno & H)]];
      rewrite H in Hok.
    - inversion Hok; subst. exists []. now rewrite app_nil_r.
    - discriminate.
    - destruct (startsWith _ root); [|discriminate]. inversion Hok; subst.
      eexists. now apply segments_join. }
  split; [|split; [exact Hseg|]].
  - destruct (validatePath_cases root input)
      as [(_ & H) | [(_ & _ & _ & H) | (_ & _ & _ & H)]];
      rewrite H in Hok.
    + now inversion Hok; subst.
    + discriminate.
    + destruct (startsWith _ root); [|discriminate]. inversion Hok; subst.
      rewrite join_absolute by assumption.
      now apply normalize_absolute_is_absolute, joined_absolute.
  - intros -> ->. destruct Hseg as [below Hbelow]. discriminate Hbelow.
Qed.

Lemma validatePath_stays_under_root_witness :
  isAbsolute "/data/photos/vacation" = true
  /\ (exists below, segments "/data/photos/vacation" = (segments "/data" ++ below)%list)
  /\ ("/data" = "/data" -> "/data/photos/vacation" <> "/data-other").
Proof.
  apply (validatePath_stays_under_root "/data" "photos/vacation"); reflexivity.
Defined.

(** Read on the paths as written: under a root in resolved form the
    slash-separated components of the returned path begin with those of the
    root. *)
Corollary validatePath_written_segments (root input full : string) :
  resolved_root root = true ->
  validatePath root input = inr full ->
  exists below, written_segments full = (written_segments root ++ below)%list.
Proof.
  intros Hres Hok. pose proof (resolved_root_absolute _ Hres) as Habs.
  assert (Hroot : written_segments root = segments root).
  { apply String.eqb_eq in Hres. rewrite Hres at 1.
    assert (Hplain : Forall plain_segment (segments root)).
    { unfold segments. rewrite Habs. apply normalizeSegments_false_plain. }
    destruct (segments root) as [|seg rest] eqn:Hsegs; [reflexivity|].
    now apply (written_segments_of_plain (seg :: rest) false). }
  destruct (validatePath_cases root input)
    as [(_ & H) | [(_ & _ & _ & H) | (_ & _ & Hno & H)]];
    rewrite H in Hok.
  - inversion Hok; subst. exists []. now rewrite app_nil_r.
  - discriminate.
  - destruct (startsWith _ root); [|discriminate]. inversion Hok; subst.
    rewrite join_absolute, written_segments_normalize, Hroot
      by auto using joined_absolute.
    eexists. now apply segments_joined.
Qed.

(** C3, as the specification words it, fails: the test is on the substring
    [..], so a name such as a..b is refused although it has no traversal
    segment (and a leading slash is stripped, not refused). *)
Lemma validatePath_refuses_dotted_name :
  ~ (forall input : string,
       validatePath "/data" input = inl Invalid_path
       <-> (In ".." (split_slash (strip_slashes input)) \/ isAbsolute input = true)).
Proof.
  intros Hclaim. destruct (Hclaim "a..b") as [Hfwd _].
  destruct (Hfwd eq_refl) as [[Hin|[]]|Habs]; discriminate.
Qed.

Example validatePath_leading_slash :
  validatePath "/data" "/etc/passwd" = inr "/data/etc/passwd".
Proof. reflexivity. Qed.

(** C3, amended: validatePath fails with 'Invalid path' exactly when the
    input is neither empty nor "/" and, once its leading and trailing
    slashes are stripped, contains the substring [..] anywhere (so a..b is
    refused); an input with a leading slash is not refused for that. Under
    a storage root in resolved form every other input is accepted. *)
Theorem validatePath_invalid_exactly (root input : string) :
  (validatePath root input = inl Invalid_path
   <-> input <> "" /\ input <> "/" /\ includes (strip_slashes input) ".." = true)
  /\ (resolved_root root = true ->
      validatePath root input <> inl Invalid_path ->
      exists full, validatePath root input = inr full).
Proof.
  destruct (validatePath_cases root input)
    as [(Hin & H) | [(Hne & Hns & Hinc & H) | (Hne & Hns & Hno & H)]].
  - split.
    + split; [rewrite H; discriminate|]. intros (? & ? & _). destruct Hin; contradiction.
    + intros _ _. now exists root.
  - split; [tauto|]. intros _ Hnot. contradiction.
  - split.
    + split.
      * rewrite H. destruct (startsWith _ root); discriminate.
      * intros (_ & _ & Hinc). congruence.
    + intros Hres _. rewrite H, resolved_root_startsWith by assumption. eauto.
Qed.

Lemma validatePath_invalid_exactly_witness :
  exists full, validatePath "/data" "/etc/passwd" = inr full.
Proof.
  apply (proj2 (validatePath_invalid_exactly "/data" "/etc/passwd"));
    [reflexivity | vm_compute; discriminate].
Defined.

End PathSandboxClaims.

(** ** getFolderMetadata and the listing *)

Section FolderSummarizerFacts.
Import JsNumber FolderSummarizer.

(** Below 2^53 the addition of Numbers is the addition of integers. *)
Lemma number_add_exact (a b : Z) :
  (0 <= a)%Z -> (0 <= b)%Z -> (a + b < exact_below)%Z -> number_add a b = (a + b)%Z.
Proof.
  intros Ha Hb Hlt. unfold number_add, round_to_double, exact_below in *.
  rewrite Z.abs_eq by lia.
  destruct (Z.ltb_spec (a + b) (2 ^ 53)); [reflexivity | lia].
Qed.

Lemma sum_nonnegative (sizes : list Z) :
  forallb (Z.leb 0) sizes = true -> (0 <= foldr Z.add 0 sizes)%Z.
Proof.
  induction sizes as [|size rest IH]; simpl; [lia|].
  intros [Hsize Hrest]%andb_prop. apply Z.leb_le in Hsize.
  specialize (IH Hrest). lia.
Qed.

Lemma running_total_exact (sizes : list Z) (start : Z) :
  (0 <= start)%Z ->
  forallb (Z.leb 0) sizes = true ->
  (start + foldr Z.add 0 sizes < exact_below)%Z ->
  running_total start sizes = (start + foldr Z.add 0 sizes)%Z.
Proof.
  revert start. induction sizes as [|size rest IH]; intros start Hstart Hsizes Hlt.
  - simpl. lia.
  - simpl in Hsizes, Hlt. apply andb_prop in Hsizes as [Hsize Hrest].
    apply Z.leb_le in Hsize. pose proof (sum_nonnegative rest Hrest) as Hsum.
    unfold running_total. cbn [fold_left]. fold (running_total (number_add start size) rest).
    rewrite number_add_exact by lia.
    rewrite IH by (try assumption; lia). simpl. lia.
Qed.

Lemma running_total_app (start : Z) (sizes more : list Z) :
  running_total start (sizes ++ more) = running_total (running_total start sizes) more.
Proof. apply fold_left_app. Qed.

Lemma sum_app (sizes more : list Z) :
  foldr Z.add 0%Z (sizes ++ more) = (foldr Z.add 0 sizes + foldr Z.add 0 more)%Z.
Proof. induction sizes as [|size rest IH]; simpl; [reflexivity | rewrite IH; lia]. Qed.

(** The sizes added are, child by child, what the child contributes. *)
Lemma sum_added_sizes (items : list (string * node)) :
  foldr Z.add 0%Z (added_sizes items) = total_contribution items.
Proof.
  unfold added_sizes, total_contribution.
  induction items as [|[name n] rest IH]; [reflexivity|].
  cbn [flat_map map foldr]. rewrite sum_app, IH. f_equal.
  destruct n as [size mtime|size mtime [e|subItems]|e]; simpl; try reflexivity. lia.
Qed.

Lemma for_of_add_subItem (subItems : list (string * node)) (total : Z) :
  forallb (fun item => stat_ok item.2) subItems = true ->
  for_of subItems add_subItem total
  = inr (running_total total (map (fun item => own_size item.2) subItems)).
Proof.
  revert total. induction subItems as [|[name n] rest IH]; intros total Hok.
  - reflexivity.
  - simpl in Hok. apply andb_prop in Hok as [Hn Hrest].
    destruct n as [size mtime|size mtime entries|e]; try discriminate;
      simpl; now rewrite IH by assumption.
Qed.

Lemma add_item_ok (item : string * node) (total : Z) (count : nat) :
  child_ok item.2 = true ->
  add_item (total, count) item
  = inr (running_total total (added_sizes_of item.2), S count).
Proof.
  destruct item as [name [size mtime|size mtime [e|subItems]|e]]; simpl;
    try discriminate; intros Hok.
  - reflexivity.
  - unfold add_item. simpl. now rewrite for_of_add_subItem.
Qed.

Lemma for_of_add_item (items : list (string * node)) (total : Z) (count : nat) :
  forallb (fun item => child_ok item.2) items = true ->
  for_of items add_item (total, count)
  = inr (running_total total (added_sizes items), count + length items).
Proof.
  revert total count. induction items as [|item rest IH]; intros total count Hok.
  - simpl. do 2 f_equal; lia.
  - simpl in Hok. apply andb_prop in Hok as [Hitem Hrest].
    cbn [for_of]. rewrite add_item_ok, IH by assumption.
    unfold added_sizes. cbn [flat_map]. rewrite running_total_app.
    simpl. do 2 f_equal; lia.
Qed.

Example contribution_of_empty_dir : contribution (Directory 4096 0 (inr [])) = 0%Z.
Proof. reflexivity. Qed.

(** C9: when no call of stat or readdir fails and the sizes added (byte
    counts, never negative) add up to less than 2^53, getFolderMetadata
    returns the number of direct children as itemCount and, as totalSize,
    the sum over the direct children of a file's size or of the sizes of a
    subdirectory's own direct children; on three files of sizes 10, 20 and
    30 and one empty subdirectory it returns itemCount 4 and totalSize 60. *)
Theorem getFolderMetadata_counts_and_sums :
  (forall (folder : node) (items : list (string * node)),
      readdir folder = inr items ->
      forallb (fun item => child_ok item.2) items = true ->
      forallb (Z.leb 0) (added_sizes items) = true ->
      (total_contribution items < exact_below)%Z ->
      getFolderMetadata folder
      = inr {| itemCount := length items; totalSize := total_contribution items |})
  /\ getFolderMetadata three_files_one_empty_dir
     = inr {| itemCount := 4; totalSize := 60 |}.
Proof.
  split; [|reflexivity].
  intros folder items Hread Hok Hsizes Hlt. unfold getFolderMetadata. rewrite Hread.
  simpl. rewrite for_of_add_item by assumption.
  rewrite running_total_exact, sum_added_sizes;
    rewrite ?sum_added_sizes; try assumption; try lia.
  reflexivity.
Qed.

Lemma getFolderMetadata_counts_and_sums_witness :
  getFolderMetadata three_files_one_empty_dir
  = inr {| itemCount := 4; totalSize := 60 |}.
Proof.
  exact (proj1 getFolderMetadata_counts_and_sums three_files_one_empty_dir _
           eq_refl eq_refl eq_refl eq_refl).
Defined.

(** From 2^53 on the additions round: sizes 2^53 - 1 and 2 are summed to
    2^53, one less than their sum. *)
Example getFolderMetadata_rounds_huge_sizes :
  getFolderMetadata two_huge_files
  = inr {| itemCount := 2; totalSize := 9007199254740992 |}
  /\ total_contribution [("a.bin", File 9007199254740991 0); ("b.bin", File 2 0)]
     = 9007199254740993%Z.
Proof. split; vm_compute; reflexivity. Qed.

Lemma for_of_add_subItem_fails (subItems : list (string * node)) (total : Z) :
  forallb (fun item => stat_ok item.2) subItems = false ->
  exists e, for_of subItems add_subItem total = inl e.
Proof.
  revert total. induction subItems as [|[name n] rest IH]; intros total Hbad.
  - discriminate.
  - destruct n as [size mtime|size mtime entries|e]; simpl in Hbad |- *; eauto.
Qed.

Lemma add_item_fails (item : string * node) (acc : Z * nat) :
  child_ok item.2 = false -> exists e, add_item acc item = inl e.
Proof.
  destruct acc as [total count].
  destruct item as [name [size mtime|size mtime [e|subItems]|e]]; simpl;
    try discriminate; intros Hbad; eauto.
  unfold add_item. simpl.
  destruct (for_of_add_subItem_fails subItems total Hbad) as [e ->]. eauto.
Qed.

(** The loop stops at the first failing call. *)
Lemma for_of_add_item_fails (items : list (string * node)) (acc : Z * nat) :
  forallb (fun item => child_ok item.2) items = false ->
  exists e, for_of items add_item acc = inl e.
Proof.
  revert acc. induction items as [|item rest IH]; intros [total count] Hbad.
  - discriminate.
  - cbn [for_of]. destruct (child_ok item.2) eqn:Hitem.
    + rewrite add_item_ok by assumption. apply IH.
      simpl in Hbad. now rewrite Hitem in Hbad.
    + destruct (add_item_fails item (total, count) Hitem) as [e ->]. eauto.
Qed.

(** C4, as the specification words it, fails: one unreadable subdirectory
    makes getFolderMetadata reject; no summary of the other children is
    returned. *)
Lemma getFolderMetadata_aborts_on_unreadable_child :
  getFolderMetadata locked_child_and_file = inl EACCES
  /\ ~ (exists summary, getFolderMetadata locked_child_and_file = inr summary).
Proof. split; [reflexivity|]. intros [summary H]. discriminate H. Qed.

Lemma itemDetail_stat_ok (item : string * node) :
  stat_ok item.2 = true ->
  exists info, itemDetail item = inr info /\ fi_name info = item.1
    /\ (forall size mtime entries e,
          item.2 = Directory size mtime entries ->
          getFolderMetadata item.2 = inl e ->
          info = degraded_info item.1 item.2).
Proof.
  destruct item as [name [size mtime|size mtime entries|e]]; simpl; try discriminate;
    intros _.
  - eexists. split; [reflexivity|]. split; [reflexivity|]. discriminate.
  - unfold itemDetail. simpl.
    destruct (getFolderMetadata (Directory size mtime entries)) as [e|summary] eqn:Hmeta.
    + eexists. split; [reflexivity|]. split; [reflexivity|]. reflexivity.
    + eexists. split; [reflexivity|]. split; [reflexivity|]. discriminate.
Qed.

(** C4, amended: getFolderMetadata itself rejects as soon as one child
    subdirectory cannot be read; it is the listing that degrades. Whenever
    every listed entry can be stat'ed the listing completes with one entry
    per item, in order, and an entry whose summary failed shows itemCount 0
    and the size stat gave for the directory, whatever went wrong below
    it. *)
Theorem listing_survives_failed_summary :
  (forall (folder : node) (items : list (string * node)),
      readdir folder = inr items ->
      forallb (fun item => child_ok item.2) items = false ->
      exists e, getFolderMetadata folder = inl e)
  /\ (forall (folder : node) (items : list (string * node)),
         readdir folder = inr items ->
         forallb (fun item => stat_ok item.2) items = true ->
         exists infos,
           itemDetails folder = inr infos
           /\ map fi_name infos = map fst items
           /\ Forall2 (fun item info =>
                         forall size mtime entries e,
                           item.2 = Directory size mtime entries ->
                           getFolderMetadata item.2 = inl e ->
                           info = degraded_info item.1 item.2)
                      items infos).
Proof.
  split.
  - intros folder items Hread Hbad.
    unfold getFolderMetadata. rewrite Hread. simpl.
    destruct (for_of_add_item_fails items (0%Z, 0) Hbad) as [e ->]. now exists e.
  - intros folder items Hread Hok. unfold itemDetails. rewrite Hread. simpl.
    clear Hread. induction items as [|item rest IH].
    + exists []. repeat split. constructor.
    + simpl in Hok. apply andb_prop in Hok as [Hitem Hrest].
      destruct (itemDetail_stat_ok item Hitem) as (info & Hinfo & Hname & Hdeg).
      destruct (IH Hrest) as (infos & Hinfos & Hnames & Hall).
      exists (info :: infos). cbn [all_details]. rewrite Hinfo. simpl.
      rewrite Hinfos. simpl. repeat split.
      * now rewrite Hname, Hnames.
      * constructor; assumption.
Qed.

Lemma listing_survives_failed_summary_witness :
  exists infos,
    itemDetails locked_child_and_file = inr infos
    /\ map fi_name infos = ["locked"; "notes.txt"]
    /\ Forall2 (fun item info =>
                  forall size mtime entries e,
                    item.2 = Directory size mtime entries ->
                    getFolderMetadata item.2 = inl e ->
                    info = degraded_info item.1 item.2)
               [("locked", Directory 4096 0 (inl EACCES)); ("notes.txt", File 10 0)]
               infos.
Proof.
  exact (proj2 listing_survives_failed_summary locked_child_and_file _ eq_refl eq_refl).
Defined.

Example listing_of_locked_child :
  itemDetails locked_child_and_file
  = inr [ {| fi_name := "locked"; fi_size := 4096; fi_modified := 0;
             fi_isDirectory := true; fi_itemCount := Some 0 |};
          {| fi_name := "notes.txt"; fi_size := 10; fi_modified := 0;
             fi_isDirectory := false; fi_itemCount := None |} ].
Proof. reflexivity. Qed.

End FolderSummarizerFacts.

(** ** Plugin discovery *)

Section DiscoveryFacts.
Import JsString PluginManager.

Lemma startsWith_char (c : ascii) (name : string) :
  startsWith name (String c "") = true <-> begins_with c name.
Proof.
  unfold startsWith, begins_with. split.
  - intros H. apply prefix_cons_inv in H as (rest & -> & _). now exists rest.
  - intros [rest ->]. simpl. destruct (ascii_dec c c); [|congruence]. now destruct rest.
Qed.

Lemma not_startsWith_char (c : ascii) (name : string) :
  negb (startsWith name (String c "")) = true <-> ~ begins_with c name.
Proof.
  rewrite negb_true_iff, <- startsWith_char.
  destruct (startsWith name (String c "")); split; congruence.
Qed.

Lemma pluginDirs_cons (entry : dirent) (entries : list dirent) :
  pluginDirs (entry :: entries) = pluginDirs entries
  \/ pluginDirs (entry :: entries) = entry :: pluginDirs entries.
Proof.
  unfold pluginDirs. simpl.
  destruct (d_isDirectory entry && _ && _); [now right | now left].
Qed.

Lemma pluginDirs_In (entries : list dirent) (entry : dirent) :
  In entry (pluginDirs entries) -> In entry entries.
Proof. unfold pluginDirs. rewrite List.filter_In. tauto. Qed.

Lemma pluginDirs_sublist (entries : list dirent) :
  pluginDirs entries `sublist_of` entries.
Proof.
  induction entries as [|entry entries IH]; [constructor|].
  destruct (pluginDirs_cons entry entries) as [-> | ->]; now constructor.
Qed.

Lemma pluginDirs_sorted (entries : list dirent) :
  lexicographic entries -> lexicographic (pluginDirs entries).
Proof.
  unfold lexicographic. induction 1 as [|entry entries Hsorted IH Hall]; [constructor|].
  destruct (pluginDirs_cons entry entries) as [-> | ->]; [assumption|].
  constructor; [assumption|].
  rewrite List.Forall_forall in *. intros e He. apply Hall. now apply pluginDirs_In.
Qed.

(** C7: fs.readdir lists the plugins directory in byte order of the
    names. Discovery keeps exactly the entries that are directories and
    whose name begins neither with [_] nor with [.], without reordering
    them, so the candidates come in lexicographic order of their names. *)
Theorem pluginDirs_lexicographic_order (entries : list dirent) :
  lexicographic entries ->
  (forall entry,
      In entry (pluginDirs entries)
      <-> In entry entries /\ d_isDirectory entry = true
          /\ ~ begins_with "_" (d_name entry) /\ ~ begins_with "." (d_name entry))
  /\ pluginDirs entries `sublist_of` entries
  /\ lexicographic (pluginDirs entries).
Proof.
  intros Hsorted.
  split; [|split; [apply pluginDirs_sublist | now apply pluginDirs_sorted]].
  intros entry. unfold pluginDirs. rewrite List.filter_In, !andb_true_iff.
  rewrite !not_startsWith_char. tauto.
Qed.

Lemma pluginDirs_lexicographic_order_witness :
  lexicographic
    (pluginDirs [ {| d_name := ".git"; d_isDirectory := true |};
                  {| d_name := "README.md"; d_isDirectory := false |};
                  {| d_name := "_template"; d_isDirectory := true |};
                  {| d_name := "audit-logger"; d_isDirectory := true |};
                  {| d_name := "file-validator"; d_isDirectory := true |} ]).
Proof.
  apply (pluginDirs_lexicographic_order _).
  repeat constructor.
Defined.

Example pluginDirs_of_listing :
  map d_name
    (pluginDirs [ {| d_name := ".git"; d_isDirectory := true |};
                  {| d_name := "README.md"; d_isDirectory := false |};
                  {| d_name := "_template"; d_isDirectory := true |};
                  {| d_name := "audit-logger"; d_isDirectory := true |};
                  {| d_name := "file-validator"; d_isDirectory := true |} ])
  = ["audit-logger"; "file-validator"].
Proof. reflexivity. Qed.

End DiscoveryFacts.

(** ** The hook chain *)

Section HookFacts.
Import PluginManager.
Local Close Scope string_scope.

Context {P W H : Type}.
Implicit Types (s : state P W H) (cb : callback P W) (m : manager P W H).

Local Ltac run :=
  unfold hook_step, try_catch, message_of, log, throw, call,
    with_world, with_log, with_manager; unfold mbind, M_bind, mret, M_ret.

(** *** One turn of the loop *)

Lemma hook_step_value s hookName result cb v w' :
  cb result (world s) = (Returned (Some v), w') ->
  hook_step hookName result cb s = (Returned (Some v), with_world w' s).
Proof. intros Hcb. run. now rewrite Hcb. Qed.

Lemma hook_step_undefined s hookName result cb w' :
  cb result (world s) = (Returned None, w') ->
  hook_step hookName result cb s = (Returned result, with_world w' s).
Proof. intros Hcb. run. now rewrite Hcb. Qed.

(** A callback that throws something with a message is logged and the
    payload is kept. *)
Lemma hook_step_error s hookName result cb message w' :
  cb result (world s) = (Threw (Thrown_error message), w') ->
  hook_step hookName result cb s
  = (Returned result, with_log (Error_in_hook hookName message) (with_world w' s)).
Proof. intros Hcb. run. now rewrite Hcb. Qed.

(** A callback that throws [null] or [undefined] makes the handler itself
    throw: nothing is logged and the TypeError leaves the loop. *)
Lemma hook_step_nullish s hookName result cb (u : nullish) w' :
  cb result (world s) = (Threw (Thrown_nullish u), w') ->
  hook_step hookName result cb s = (Threw (type_error u "message"), with_world w' s).
Proof. intros Hcb. run. now rewrite Hcb. Qed.

(** The loop neither reads nor writes the manager. *)
Lemma hook_step_with_manager m s hookName result cb :
  hook_step hookName result cb (with_manager m s)
  = let '(o, s1) := hook_step hookName result cb s in (o, with_manager m s1).
Proof.
  run. simpl. destruct (cb result (world s)) as [[[v|]|[u|message]] w']; reflexivity.
Qed.

Lemma hook_loop_with_manager m s hookName callbacks result :
  hook_loop hookName callbacks result (with_manager m s)
  = let '(o, s1) := hook_loop hookName callbacks result s in (o, with_manager m s1).
Proof.
  revert s result. induction callbacks as [|cb rest IH]; intros s result.
  - reflexivity.
  - cbn [hook_loop]. unfold mbind, M_bind. rewrite hook_step_with_manager.
    destruct (hook_step hookName result cb s) as [[r|e] s1]; [apply IH | reflexivity].
Qed.

Lemma hook_loop_app s hookName (xs ys : list (callback P W)) result :
  hook_loop hookName (xs ++ ys) result s
  = match hook_loop hookName xs result s with
    | (Returned r, s1) => hook_loop hookName ys r s1
    | (Threw e, s1) => (Threw e, s1)
    end.
Proof.
  revert s result. induction xs as [|cb rest IH]; intros s result.
  - reflexivity.
  - change ((cb :: rest) ++ ys) with (cb :: (rest ++ ys)).
    cbn [hook_loop]. unfold mbind, M_bind.
    destruct (hook_step hookName result cb s) as [[r|e] s1]; [apply IH | reflexivity].
Qed.

Lemma hook_loop_one s hookName cb result :
  hook_loop hookName [cb] result s = hook_step hookName result cb s.
Proof.
  cbn [hook_loop]. unfold mbind, M_bind, mret, M_ret.
  now destruct (hook_step hookName result cb s) as [[r|e] s1].
Qed.

(** [executeHook] is the loop over the callbacks registered for the name. *)
Lemma executeHook_loop s hookName data :
  executeHook hookName data s
  = hook_loop hookName (default [] (hooks (mgr s) !! hookName)) data s.
Proof.
  unfold executeHook, get_manager. unfold mbind, M_bind.
  now destruct (default [] (hooks (mgr s) !! hookName)).
Qed.

(** *** Registration *)

Lemma registerHook_on_lookup m hookName cb :
  hooks (registerHook_on m hookName cb) !! hookName
  = Some (default [] (hooks m !! hookName) ++ [cb]).
Proof. unfold registerHook_on. simpl. apply lookup_insert_eq. Qed.

Lemma registerHook_on_lookup_ne m hookName other cb :
  hookName <> other ->
  hooks (registerHook_on m hookName cb) !! other = hooks m !! other.
Proof. intros Hne. unfold registerHook_on. simpl. now apply lookup_insert_ne. Qed.

(** Callbacks registered one after the other end up in that order. *)
Lemma register_all_lookup m hookName (callbacks : list (callback P W)) :
  callbacks <> [] ->
  hooks (register_all m hookName callbacks) !! hookName
  = Some (default [] (hooks m !! hookName) ++ callbacks).
Proof.
  unfold register_all. revert m.
  induction callbacks as [|cb rest IH]; intros m Hne; [congruence|].
  simpl. destruct rest as [|cb' rest'].
  - apply registerHook_on_lookup.
  - rewrite IH by discriminate. rewrite registerHook_on_lookup. simpl.
    now rewrite <- app_assoc.
Qed.

(** C6: with no callback registered for the name executeHook returns its
    input and touches nothing; registerHook puts a callback behind those
    already registered for the name; executeHook runs the callbacks in that
    order, each on the current payload: with one more callback registered
    it does what it did before and then calls the new callback on the
    payload the earlier ones left; a callback that returns undefined
    leaves the payload as it is, a returned value becomes the payload. *)
Theorem executeHook_registration_order s hookName cb data :
  (default [] (hooks (mgr s) !! hookName) = [] ->
   executeHook hookName data s = (Returned data, s))
  /\ hooks (registerHook_on (mgr s) hookName cb) !! hookName
     = Some (default [] (hooks (mgr s) !! hookName) ++ [cb])
  /\ executeHook hookName data (with_manager (registerHook_on (mgr s) hookName cb) s)
     = match executeHook hookName data s with
       | (Returned result, s1) =>
           hook_step hookName result cb
             (with_manager (registerHook_on (mgr s) hookName cb) s1)
       | (Threw e, s1) =>
           (Threw e, with_manager (registerHook_on (mgr s) hookName cb) s1)
       end
  /\ (forall result w',
        cb result (world s) = (Returned None, w') ->
        hook_step hookName result cb s = (Returned result, with_world w' s))
  /\ (forall result v w',
        cb result (world s) = (Returned (Some v), w') ->
        hook_step hookName result cb s = (Returned (Some v), with_world w' s)).
Proof.
  split; [|split; [|split; [|split]]].
  - intros Hnone. rewrite executeHook_loop, Hnone. reflexivity.
  - apply registerHook_on_lookup.
  - rewrite !executeHook_loop.
    change (mgr (with_manager ?m s)) with m.
    rewrite registerHook_on_lookup.
    change (default [] (Some ?l)) with l.
    rewrite hook_loop_with_manager, hook_loop_app.
    destruct (hook_loop hookName (default [] (hooks (mgr s) !! hookName)) data s)
      as [[result|e] s1]; [|reflexivity].
    now rewrite hook_loop_one, hook_step_with_manager.
  - intros result w'. apply hook_step_undefined.
  - intros result v w'. apply hook_step_value.
Qed.

(** *** A failing callback in the middle *)

(** Three callbacks, the second throws something with a message: the third
    is called with the payload the first one left, and the failure is on
    the console. *)
Lemma executeHook_middle_error s hookName c1 c2 c3 data r1 s1 message w2 :
  hooks (mgr s) !! hookName = Some [c1; c2; c3] ->
  hook_step hookName data c1 s = (Returned r1, s1) ->
  c2 r1 (world s1) = (Threw (Thrown_error message), w2) ->
  executeHook hookName data s
  = hook_step hookName r1 c3
      (with_log (Error_in_hook hookName message) (with_world w2 s1)).
Proof.
  intros Hcbs H1 H2. rewrite executeHook_loop, Hcbs.
  change (default [] (Some ?l)) with l.
  cbn [hook_loop]. unfold mbind at 1, M_bind at 1. rewrite H1.
  unfold mbind at 1, M_bind at 1. rewrite (hook_step_error _ _ _ _ _ _ H2).
  unfold mbind, M_bind, mret, M_ret.
  now destruct (hook_step hookName r1 c3 _) as [[r|e] s3].
Qed.

(** The same with a second callback that throws [null] or [undefined]:
    the third is not called and executeHook throws. *)
Lemma executeHook_middle_nullish s hookName c1 c2 c3 data r1 s1 (u : nullish) w2 :
  hooks (mgr s) !! hookName = Some [c1; c2; c3] ->
  hook_step hookName data c1 s = (Returned r1, s1) ->
  c2 r1 (world s1) = (Threw (Thrown_nullish u), w2) ->
  executeHook hookName data s = (Threw (type_error u "message"), with_world w2 s1).
Proof.
  intros Hcbs H1 H2. rewrite executeHook_loop, Hcbs.
  change (default [] (Some ?l)) with l.
  cbn [hook_loop]. unfold mbind at 1, M_bind at 1. rewrite H1.
  unfold mbind at 1, M_bind at 1. now rewrite (hook_step_nullish _ _ _ _ _ _ H2).
Qed.

(** If no callback throws [null] or [undefined], executeHook returns. *)
Lemma hook_loop_returns s hookName (callbacks : list (callback P W)) result :
  (forall cb payload w u,
      In cb callbacks -> (cb payload w).1 <> Threw (Thrown_nullish u)) ->
  exists final s', hook_loop hookName callbacks result s = (Returned final, s').
Proof.
  revert s result. induction callbacks as [|cb rest IH]; intros s result Hsafe.
  - now exists result, s.
  - cbn [hook_loop]. unfold mbind, M_bind.
    assert (Hstep : exists r s1, hook_step hookName result cb s = (Returned r, s1)).
    { destruct (cb result (world s)) as [[[v|]|[u|message]] w'] eqn:Hrun.
      - rewrite (hook_step_value _ _ _ _ _ _ Hrun). eauto.
      - rewrite (hook_step_undefined _ _ _ _ _ Hrun). eauto.
      - pose proof (Hsafe cb result (world s) u (or_introl eq_refl)) as Hcb.
        rewrite Hrun in Hcb. now contradiction Hcb.
      - rewrite (hook_step_error _ _ _ _ _ _ Hrun). eauto. }
    destruct Hstep as (r & s1 & ->). apply IH.
    intros cb' payload w u Hin. apply Hsafe. now right.
Qed.

End HookFacts.

Section HookScenarios.
Import PluginManager.
Local Close Scope string_scope.

Lemma executeHook_registration_order_witness :
  executeHook "afterDelete" (Some 7) fresh = (Returned (Some 7), fresh)
  /\ hook_step "afterDelete" (Some 7) observer fresh
     = (Returned (Some 7), with_world [("observer", Some 7)] fresh)
  /\ hook_step "afterDelete" (Some 7) increment fresh
     = (Returned (Some 8), with_world [("increment", Some 7)] fresh).
Proof.
  pose proof (executeHook_registration_order fresh "afterDelete" observer (Some 7))
    as (Hnone & _ & _ & Hundefined & _).
  pose proof (executeHook_registration_order fresh "afterDelete" increment (Some 7))
    as (_ & _ & _ & _ & Hvalue).
  split; [apply Hnone; reflexivity|].
  split; [apply Hundefined; reflexivity | apply Hvalue; reflexivity].
Defined.

Example three_callbacks_registered (e : thrown) :
  hooks (mgr (three_callbacks e)) !! "beforeUpload"
  = Some [increment; failing e; observer].
Proof. reflexivity. Qed.

(** With a second callback that throws an Error the chain goes on: the
    observer sees the payload the first callback produced. *)
Example executeHook_three_callbacks_error :
  executeHook "beforeUpload" (Some 0) (three_callbacks (Thrown_error "boom"))
  = (Returned (Some 1),
     {| mgr := mgr (three_callbacks (Thrown_error "boom"));
        world := [("increment", Some 0); ("failing", Some 1); ("observer", Some 1)];
        console := [Error_in_hook "beforeUpload" "boom"] |}).
Proof. vm_compute. reflexivity. Qed.

(** C2 fails on the code: when the second of three callbacks throws
    [undefined] (or [null], or rejects without a reason), reading
    [error.message] in the catch block throws a TypeError; executeHook
    propagates it, the third callback is never called and nothing is
    logged. *)
Theorem executeHook_nullish_throw_escapes (u : nullish) :
  executeHook "beforeUpload" (Some 0) (three_callbacks (Thrown_nullish u))
  = (Threw (type_error u "message"),
     {| mgr := mgr (three_callbacks (Thrown_nullish u));
        world := [("increment", Some 0); ("failing", Some 1)];
        console := [] |}).
Proof. destruct u; vm_compute; reflexivity. Qed.

End HookScenarios.

(** ** Loading plugins *)

Section LoaderFacts.
Import NodePath PluginManager.
Local Close Scope string_scope.

Context {P W H : Type}.
Implicit Types (s : state P W H) (m : manager P W H) (fs : plugins_fs P W H)
  (files : plugin_files P W H) (module : plugin_module P W H).

Local Ltac run :=
  unfold try_catch, message_of, log, throw, lift, get_manager, set_manager,
    with_world, with_log, with_manager; unfold mbind, M_bind, mret, M_ret.

Lemma map_get_map_set {V : Type} (entries : list (string * V)) (key : string) (v : V) :
  map_get (map_set entries key v) key = Some v.
Proof.
  induction entries as [|[k v'] rest IH]; simpl.
  - now rewrite String.eqb_refl.
  - destruct (String.eqb k key) eqn:Hk; simpl; now rewrite Hk.
Qed.

Lemma map_get_In {V : Type} (entries : list (string * V)) (key : string) (v : V) :
  map_get entries key = Some v -> In (key, v) entries.
Proof.
  induction entries as [|[k v'] rest IH]; simpl; [discriminate|].
  destruct (String.eqb_spec k key) as [->|_].
  - intros [= ->]. now left.
  - intros Hget. right. now apply IH.
Qed.

(** What [init] registers changes neither [this.plugins] nor the console. *)
Lemma for_of_registrations s (regs : list (registration P W H)) :
  exists m',
    for_of regs apply_registration s = (Returned tt, with_manager m' s)
    /\ plugins m' = plugins (mgr s) /\ pluginsDir m' = pluginsDir (mgr s).
Proof.
  revert s. induction regs as [|r rest IH]; intros s.
  - exists (mgr s). now destruct s.
  - cbn [for_of]. unfold mbind at 1, M_bind at 1.
    assert (Hr : exists m1, apply_registration r s = (Returned tt, with_manager m1 s)
                            /\ plugins m1 = plugins (mgr s)
                            /\ pluginsDir m1 = pluginsDir (mgr s)).
    { destruct r as [hookName cb|method path handler]; simpl;
        unfold registerHook, addRoute; run; eexists; split; reflexivity || (split; reflexivity). }
    destruct Hr as (m1 & -> & Hp1 & Hd1).
    destruct (IH (with_manager m1 s)) as (m' & -> & Hp & Hd).
    exists m'. simpl in *. repeat split; congruence.
Qed.

Lemma run_init_state s init config pluginDir :
  exists m',
    run_init init config pluginDir s
    = (init_result (init config pluginDir (world s)),
       {| mgr := m'; world := init_world (init config pluginDir (world s));
          console := console s |})
    /\ plugins m' = plugins (mgr s) /\ pluginsDir m' = pluginsDir (mgr s).
Proof.
  unfold run_init.
  destruct (for_of_registrations
              {| mgr := mgr s; world := init_world (init config pluginDir (world s));
                 console := console s |}
              (registrations (init config pluginDir (world s))))
    as (m' & -> & Hp & Hd).
  exists m'. simpl in *. auto.
Qed.






(** *** The ways loadPlugin ends *)

Lemma loadPlugin_disabled fs pluginName s config :
  config_json (plugin_dir fs pluginName) = Some (inr config) ->
  enabled_is_false config = Returned true ->
  exists entry, loadPlugin fs pluginName s = (Returned tt, with_log entry s).
Proof.
  intros Hconfig Hdisabled. unfold loadPlugin. run. simpl.
  destruct (has_index (plugin_dir fs pluginName)); simpl.
  - rewrite Hconfig. simpl. rewrite Hdisabled. simpl. eauto.
  - eauto.
Qed.

Lemma well_formed_config files module init config pluginDir w :
  well_formed files module init config pluginDir w ->
  match config_json files with
  | None => JObject []
  | Some (inl _) => config
  | Some (inr parsed) => parsed
  end = config
  /\ (forall message, config_json files <> Some (inl message)).
Proof.
  intros (_ & [[-> ->] | ->] & _); split; (reflexivity || discriminate).
Qed.

Lemma loadPlugin_well_formed fs pluginName s module init config :
  well_formed (plugin_dir fs pluginName) module init config
    (join (pluginsDir (mgr s)) pluginName) (world s) ->
  exists s',
    loadPlugin fs pluginName s = (Returned tt, s')
    /\ plugins (mgr s')
       = map_set (plugins (mgr s)) pluginName
           {| e_name := or_default (p_name module) pluginName;
              e_version := or_default (p_version module) "1.0.0";
              e_description := or_default (p_description module) "";
              e_module := module |}.
Proof.
  intros Hwf. pose proof Hwf as (Hindex & Hconfig & Henabled & Hjs & Hinit & Hrun).
  unfold loadPlugin. run. simpl. rewrite Hindex. simpl.
  destruct Hconfig as [[-> ->] | ->]; simpl; rewrite ?Henabled; simpl;
    rewrite Hjs; simpl; unfold validatePlugin; rewrite Hinit; run; simpl;
    match goal with |- context [run_init init ?c ?d ?s0] =>
      destruct (run_init_state s0 init c d) as (m' & -> & Hplugins & Hdir)
    end; rewrite Hrun; simpl;
    eexists; (split; [reflexivity|]); simpl; now rewrite Hplugins.
Qed.

Lemma loadPlugin_lacks_init fs pluginName s module :
  lacks_init (plugin_dir fs pluginName) module ->
  loadPlugin fs pluginName s = (Returned tt, with_log (Warn_missing_init pluginName) s).
Proof.
  intros (Hindex & Hconfig & Hjs & Hinit).
  unfold loadPlugin. run. simpl. rewrite Hindex. simpl.
  destruct Hconfig as [-> | (config & -> & Henabled)]; simpl; rewrite ?Henabled; simpl;
    rewrite Hjs; simpl; unfold validatePlugin; rewrite Hinit; run; reflexivity.
Qed.

Lemma getPluginInfo_set m pluginName module :
  plugins m = [] ->
  forall m', plugins m'
             = map_set (plugins m) pluginName
                 {| e_name := or_default (p_name module) pluginName;
                    e_version := or_default (p_version module) "1.0.0";
                    e_description := or_default (p_description module) "";
                    e_module := module |} ->
  getPluginInfo m' = [info_of module pluginName].
Proof. intros Hnone m' Hset. unfold getPluginInfo. rewrite Hset, Hnone. reflexivity. Qed.

(** One plugin without [init] next to a well-formed one, in either order:
    loadPlugins loads exactly the well-formed one. *)
Lemma loadPlugins_skips_plugin_without_init fs s bad good
    (bad_module good_module : plugin_module P W H) init config :
  dir_exists fs = true ->
  pluginDirs [bad; good] = [bad; good] ->
  dir_entries fs = inr [bad; good] \/ dir_entries fs = inr [good; bad] ->
  plugins (mgr s) = [] ->
  lacks_init (plugin_dir fs (d_name bad)) bad_module ->
  well_formed (plugin_dir fs (d_name good)) good_module init config
    (join (pluginsDir (mgr s)) (d_name good)) (world s) ->
  exists s',
    loadPlugins fs s = (Returned tt, s')
    /\ getPluginInfo (mgr s') = [info_of good_module (d_name good)].
Proof.
  intros Hexists Hkept Horder Hnone Hbad Hgood.
  assert (Hkept' : pluginDirs [good; bad] = [good; bad]).
  { unfold pluginDirs in *. simpl in *.
    destruct (d_isDirectory bad && _ && _); destruct (d_isDirectory good && _ && _);
      try discriminate; reflexivity. }
  unfold loadPlugins. run. rewrite Hexists. cbn [negb].
  destruct Horder as [-> | ->]; cbn beta iota; rewrite ?Hkept, ?Hkept'; cbn [for_of];
    unfold mbind, M_bind, mret, M_ret.
  - rewrite (loadPlugin_lacks_init fs (d_name bad) _ bad_module Hbad).
    match goal with |- context [loadPlugin fs (d_name good) ?s0] =>
      destruct (loadPlugin_well_formed fs (d_name good) s0 good_module init config Hgood)
        as (s1 & -> & Hplugins)
    end.
    eexists. split; [reflexivity|]. cbn [mgr].
    now apply (getPluginInfo_set (mgr s) _ _ Hnone).
  - match goal with |- context [loadPlugin fs (d_name good) ?s0] =>
      destruct (loadPlugin_well_formed fs (d_name good) s0 good_module init config Hgood)
        as (s1 & -> & Hplugins)
    end.
    rewrite (loadPlugin_lacks_init fs (d_name bad) _ bad_module Hbad).
    eexists. split; [reflexivity|]. cbn [mgr with_log].
    now apply (getPluginInfo_set (mgr s) _ _ Hnone).
Qed.

(** C8: loading a plugin whose parsed configuration has [enabled] equal to
    [false] returns normally and leaves the hook map, the route list and
    the plugin map as they were (the world too: neither the module nor its
    [init] is run); getPluginInfo shows what it showed before, so a plugin
    that was absent stays absent. *)
Theorem loadPlugin_disabled_changes_nothing fs pluginName s config :
  config_json (plugin_dir fs pluginName) = Some (inr config) ->
  enabled_is_false config = Returned true ->
  exists s',
    loadPlugin fs pluginName s = (Returned tt, s')
    /\ hooks (mgr s') = hooks (mgr s)
    /\ routes (mgr s') = routes (mgr s)
    /\ plugins (mgr s') = plugins (mgr s)
    /\ world s' = world s
    /\ getPluginInfo (mgr s') = getPluginInfo (mgr s)
    /\ (map_get (plugins (mgr s)) pluginName = None ->
        map_get (plugins (mgr s')) pluginName = None).
Proof.
  intros Hconfig Hdisabled.
  destruct (loadPlugin_disabled fs pluginName s config Hconfig Hdisabled) as [entry ->].
  eexists. split; [reflexivity|]. simpl. repeat split; auto.
Qed.

(** C10: a plugin that loads is recorded under its directory name with
    the name, version and description its module exports; when the module
    exports no name the entry of getPluginInfo carries the directory name,
    when it exports no version '1.0.0', when it exports no description the
    empty string. *)
Theorem loadPlugin_records_defaults fs pluginName s module init config :
  well_formed (plugin_dir fs pluginName) module init config
    (join (pluginsDir (mgr s)) pluginName) (world s) ->
  exists s' entry,
    loadPlugin fs pluginName s = (Returned tt, s')
    /\ map_get (plugins (mgr s')) pluginName = Some entry
    /\ In (info_of module pluginName) (getPluginInfo (mgr s'))
    /\ e_name entry = name (info_of module pluginName)
    /\ e_version entry = version (info_of module pluginName)
    /\ e_description entry = description (info_of module pluginName)
    /\ (p_name module = None -> name (info_of module pluginName) = pluginName)
    /\ (p_version module = None -> version (info_of module pluginName) = "1.0.0")
    /\ (p_description module = None -> description (info_of module pluginName) = "").
Proof.
  intros Hwf.
  destruct (loadPlugin_well_formed fs pluginName s module init config Hwf)
    as (s' & Hload & Hplugins).
  eexists s', _. split; [exact Hload|].
  split; [rewrite Hplugins; apply map_get_map_set|].
  split.
  { unfold getPluginInfo. rewrite Hplugins.
    apply in_map_iff. eexists (pluginName, _). split; cycle 1.
    - apply map_get_In, map_get_map_set.
    - reflexivity. }
  repeat split; unfold info_of; simpl; now intros ->.
Qed.

End LoaderFacts.

Section LoaderScenarios.
Import NodePath PluginManager.
Local Close Scope string_scope.

Example enabled_false_is_explicit :
  enabled_is_false disabled_config = Returned true
  /\ enabled_is_false (JObject []) = Returned false
  /\ enabled_is_false (JObject [("enabled", JNumber 0)]) = Returned false
  /\ enabled_is_false (JObject [("enabled", JBool true)]) = Returned false.
Proof. repeat split. Qed.

Lemma loadPlugin_disabled_changes_nothing_witness :
  exists s',
    loadPlugin only_disabled "working" fresh = (Returned tt, s')
    /\ hooks (mgr s') = hooks (mgr fresh)
    /\ routes (mgr s') = routes (mgr fresh)
    /\ plugins (mgr s') = plugins (mgr fresh)
    /\ world s' = world fresh
    /\ getPluginInfo (mgr s') = getPluginInfo (mgr fresh)
    /\ (map_get (plugins (mgr fresh)) "working" = None ->
        map_get (plugins (mgr s')) "working" = None).
Proof.
  apply (loadPlugin_disabled_changes_nothing only_disabled "working" fresh
           disabled_config); reflexivity.
Defined.

Example loadPlugins_only_disabled :
  getPluginInfo (mgr (loadPlugins only_disabled fresh).2) = []
  /\ hooks (mgr (loadPlugins only_disabled fresh).2) = ∅.
Proof. split; vm_compute; reflexivity. Qed.

Lemma working_module_well_formed (broken : plugin_module nat calls unit) :
  exists init,
    well_formed (plugin_dir (broken_then_working broken) "working") working_module init
      (JObject []) (join (pluginsDir (mgr fresh)) "working") (world fresh).
Proof.
  eexists. unfold well_formed. simpl.
  split; [reflexivity|]. split; [left; split; reflexivity|].
  split; [reflexivity|]. split; [reflexivity|]. split; reflexivity.
Defined.

Lemma loadPlugin_records_defaults_witness :
  exists s' entry,
    loadPlugin (broken_then_working no_init_module) "working" fresh = (Returned tt, s')
    /\ map_get (plugins (mgr s')) "working" = Some entry
    /\ In (info_of working_module "working") (getPluginInfo (mgr s'))
    /\ e_name entry = name (info_of working_module "working")
    /\ e_version entry = version (info_of working_module "working")
    /\ e_description entry = description (info_of working_module "working")
    /\ (p_name working_module = None -> name (info_of working_module "working") = "working")
    /\ (p_version working_module = None ->
        version (info_of working_module "working") = "1.0.0")
    /\ (p_description working_module = None ->
        description (info_of working_module "working") = "").
Proof.
  destruct (working_module_well_formed no_init_module) as [init Hwf].
  exact (loadPlugin_records_defaults (broken_then_working no_init_module) "working"
           fresh working_module init (JObject []) Hwf).
Defined.

Example working_module_info :
  info_of working_module "working"
  = {| name := "Audit log"; version := "1.0.0"; description := "" |}.
Proof. reflexivity. Qed.

(** A plugin without [init], or one whose [init] throws an Error, is
    skipped and the next one loads. *)
Example loadPlugins_skips_missing_init :
  (loadPlugins (broken_then_working no_init_module) fresh).1 = Returned tt
  /\ getPluginInfo (mgr (loadPlugins (broken_then_working no_init_module) fresh).2)
     = [{| name := "Audit log"; version := "1.0.0"; description := "" |}]
  /\ console (loadPlugins (broken_then_working no_init_module) fresh).2
     = [Log_loading_plugins_from "/app/plugins"; Warn_missing_init "broken";
        Log_plugin_loaded "Audit log" "1.0.0"; Log_loaded_plugins 1].
Proof. repeat split; vm_compute; reflexivity. Qed.

Example loadPlugins_skips_throwing_init :
  getPluginInfo
    (mgr (loadPlugins (broken_then_working (throwing_init_module (Thrown_error "no database")))
            fresh).2)
  = [{| name := "Audit log"; version := "1.0.0"; description := "" |}].
Proof. vm_compute. reflexivity. Qed.

(** C5 fails on the code: when the [init] of the first plugin throws
    [undefined] (or [null], or rejects without a reason), the catch block
    of loadPlugin throws a TypeError on [error.message], the loop of
    loadPlugins ends in its own catch block and the well-formed plugin
    after it is never loaded: loadPlugins returns, getPluginInfo is
    empty. *)
Theorem loadPlugins_nullish_init_stops_loading (u : nullish) :
  (loadPlugins (broken_then_working (throwing_init_module (Thrown_nullish u))) fresh).1
  = Returned tt
  /\ getPluginInfo
       (mgr (loadPlugins (broken_then_working (throwing_init_module (Thrown_nullish u)))
               fresh).2)
     = []
  /\ console (loadPlugins (broken_then_working (throwing_init_module (Thrown_nullish u)))
                fresh).2
     = [Log_loading_plugins_from "/app/plugins";
        Error_loading_plugins
          match u with
          | Undefined => "Cannot read properties of undefined (reading 'message')"
          | Null => "Cannot read properties of null (reading 'message')"
          end].
Proof. destruct u; repeat split; vm_compute; reflexivity. Qed.

End LoaderScenarios.

(** ** validatePath: slashes around the input and the path returned *)

Section PathSandboxMore.
Import JsString NodePath PathSandbox.

Lemma drop_trailing_slashes_idem (s : string) :
  drop_trailing_slashes (drop_trailing_slashes s) = drop_trailing_slashes s.
Proof.
  induction s as [|c s IH]; [reflexivity|].
  cbn [drop_trailing_slashes].
  destruct (drop_trailing_slashes s) as [|d r] eqn:Hr.
  - destruct (is_slash c) eqn:Hc; [reflexivity|]. simpl. now rewrite Hc.
  - cbn [drop_trailing_slashes]. cbn [drop_trailing_slashes] in IH.
    destruct (drop_trailing_slashes r) as [|d' r'] eqn:Hr'.
    + destruct (is_slash d); [discriminate | congruence].
    + congruence.
Qed.

Lemma strip_slashes_idem (s : string) :
  strip_slashes (strip_slashes s) = strip_slashes s.
Proof.
  destruct (strip_slashes_head s) as [Hs|(c & rest & Hs & Hc)].
  - now rewrite Hs.
  - unfold strip_slashes at 1. rewrite Hs. cbn [drop_leading_slashes]. rewrite Hc.
    rewrite <- Hs. unfold strip_slashes. apply drop_trailing_slashes_idem.
Qed.

Lemma strip_slashes_nonempty_input (s : string) :
  strip_slashes s <> "" -> s <> "" /\ s <> "/".
Proof. intros Hs. split; intros ->; now apply Hs. Qed.

Lemma strip_slashes_not_slash (s : string) : strip_slashes s <> "/".
Proof.
  intros Hs. pose proof (strip_slashes_not_absolute s) as Habs.
  rewrite Hs in Habs. discriminate.
Qed.

Lemma ends_with_slash_drop_trailing (s : string) :
  ends_with_slash (drop_trailing_slashes s) = false.
Proof.
  induction s as [|c s IH]; [reflexivity|].
  cbn [drop_trailing_slashes].
  destruct (drop_trailing_slashes s) as [|d r] eqn:Hr.
  - destruct (is_slash c) eqn:Hc; [reflexivity|]. simpl. exact Hc.
  - exact IH.
Qed.

Lemma ends_with_slash_append (a b : string) :
  b <> "" -> ends_with_slash (a ++ b) = ends_with_slash b.
Proof.
  intros Hb. induction a as [|c a IH]; [reflexivity|].
  rewrite append_cons. cbn [ends_with_slash]. rewrite IH.
  destruct (a ++ b) eqn:Hab; [|reflexivity].
  destruct a; [simpl in Hab; contradiction | discriminate].
Qed.

Lemma ends_with_slash_slash_free (s : string) :
  slash_free s = true -> ends_with_slash s = false.
Proof.
  induction s as [|c s IH]; [reflexivity|]. simpl.
  intros [Hc Hs]%andb_prop. apply negb_true_iff in Hc.
  destruct s; [exact Hc | now apply IH].
Qed.

Lemma ends_with_slash_join_plain (segs : list string) :
  Forall plain_segment segs -> ends_with_slash (join_slash segs) = false.
Proof.
  induction 1 as [|seg rest (Hp & _ & Hfree) Hrest IH]; [reflexivity|].
  destruct rest as [|seg' rest'].
  - now apply ends_with_slash_slash_free.
  - rewrite join_slash_cons by discriminate.
    rewrite ends_with_slash_append by discriminate.
    change (String slash ?x) with ("/" ++ x).
    rewrite ends_with_slash_append; [exact IH|].
    intros Hempty. apply join_slash_empty in Hempty; [discriminate | assumption].
Qed.

Lemma segments_plain (p : string) :
  isAbsolute p = true -> Forall plain_segment (segments p).
Proof. intros Habs. unfold segments. rewrite Habs. apply normalizeSegments_false_plain. Qed.

(** The path that [path.join] builds never ends in a slash here, except
    for the root of the file system. *)
Lemma joined_no_trailing_slash (root cleaned : string) :
  resolved_root root = true ->
  segments (joined root (strip_slashes cleaned)) <> [] ->
  includes (strip_slashes cleaned) ".." = false ->
  ends_with_slash (joined root (strip_slashes cleaned)) = false.
Proof.
  intros Hres Hsegs Hno. pose proof (resolved_root_absolute _ Hres) as Habs.
  unfold joined in *. destruct (String.eqb_spec (strip_slashes cleaned) "") as [Hc|Hc].
  - apply String.eqb_eq in Hres. rewrite Hres.
    destruct (segments root) as [|seg rest] eqn:HR; [contradiction|].
    change ("/" ++ ?x) with (String slash x).
    change (String slash ?x) with ("/" ++ x).
    rewrite ends_with_slash_append.
    + apply ends_with_slash_join_plain. rewrite <- HR. now apply segments_plain.
    + intros Hempty. apply join_slash_empty in Hempty; [discriminate|].
      rewrite <- HR. now apply segments_plain.
  - rewrite ends_with_slash_append.
    + rewrite ends_with_slash_append by assumption.
      apply ends_with_slash_drop_trailing.
    + destruct (strip_slashes cleaned); discriminate.
Qed.

(** Under a resolved root [path.join] writes the root's segments and the
    proper segments of a traversal-free relative path, nothing else. *)
Lemma join_resolved (root input : string) :
  resolved_root root = true ->
  includes (strip_slashes input) ".." = false ->
  join root (strip_slashes input)
  = "/" ++ join_slash
             (segments root
              ++ List.filter proper_segment (split_slash (strip_slashes input)))%list.
Proof.
  intros Hres Hno. pose proof (resolved_root_absolute _ Hres) as Habs.
  rewrite join_absolute, normalize_absolute by auto using joined_absolute.
  pose proof (joined_no_trailing_slash root input Hres) as Htrail.
  rewrite segments_joined in * by assumption.
  destruct (segments root ++ _)%list as [|seg rest] eqn:Hsegs; [reflexivity|].
  rewrite Htrail; [reflexivity | discriminate | assumption].
Qed.

(** X1: slashes in front of and behind the input make no difference:
    whenever something is left after stripping them, validatePath gives for
    the input what it gives for the stripped input, result or error. *)
Theorem validatePath_ignores_outer_slashes (root input : string) :
  strip_slashes input <> "" ->
  validatePath root input = validatePath root (strip_slashes input).
Proof.
  intros Hleft. destruct (strip_slashes_nonempty_input _ Hleft) as [Hne Hns].
  unfold validatePath. rewrite strip_slashes_idem.
  destruct (String.eqb_spec input ""); [contradiction|].
  destruct (String.eqb_spec input "/"); [contradiction|].
  destruct (String.eqb_spec (strip_slashes input) ""); [contradiction|].
  destruct (String.eqb_spec (strip_slashes input) "/") as [Hs|_]; [|reflexivity].
  now apply strip_slashes_not_slash in Hs.
Qed.

Lemma validatePath_ignores_outer_slashes_witness :
  validatePath "/data" "//photos/2024/" = validatePath "/data" "photos/2024".
Proof.
  apply (validatePath_ignores_outer_slashes "/data" "//photos/2024/").
  vm_compute. discriminate.
Defined.

(** X2: under a storage root in resolved form, an input without the
    substring [..] resolves to the root's segments followed by the input's
    non-empty, non-[.] segments, written with single slashes and no
    trailing slash. *)
Theorem validatePath_resolves_to (root input : string) :
  resolved_root root = true ->
  input <> "" -> input <> "/" ->
  includes (strip_slashes input) ".." = false ->
  validatePath root input
  = inr ("/" ++ join_slash
                  (segments root
                   ++ List.filter proper_segment (split_slash (strip_slashes input)))%list).
Proof.
  intros Hres Hne Hns Hno. pose proof (resolved_root_absolute _ Hres) as Habs.
  destruct (validatePath_cases root input)
    as [([?|?] & _) | [(_ & _ & Hinc & _) | (_ & _ & _ & ->)]];
    try contradiction; [congruence|].
  rewrite resolved_root_startsWith by assumption. f_equal.
  now apply join_resolved.
Qed.

Lemma validatePath_resolves_to_witness :
  validatePath "/data" "/photos/./2024//" = inr "/data/photos/2024".
Proof.
  apply (validatePath_resolves_to "/data" "/photos/./2024//");
    [reflexivity | discriminate | discriminate | reflexivity].
Defined.

End PathSandboxMore.

(** ** The folder and file routes *)

Section RoutesFacts.
Import JsString NodePath NodeDirname PathSandbox Routes.

Lemma includes_slash_free (s : string) :
  includes s "/" = false -> slash_free s = true.
Proof.
  induction s as [|c s IH]; [reflexivity|].
  cbn [includes slash_free]. intros [Hhead Htail]%orb_false_elim.
  rewrite (IH Htail), andb_true_r. unfold startsWith in Hhead. simpl in Hhead.
  unfold is_slash, slash.
  destruct (ascii_dec "/" c) as [<-|Hne].
  - now destruct s.
  - apply negb_true_iff, Ascii.eqb_neq. congruence.
Qed.

(** A name the folder routes accept is one plain segment. *)
Lemma valid_folder_name_plain (name : string) :
  name <> "" -> invalid_folder_name name = false -> plain_segment name.
Proof.
  unfold invalid_folder_name. intros Hne Hvalid.
  apply orb_false_elim in Hvalid as [Hvalid Hdd].
  apply orb_false_elim in Hvalid as [Hvalid Hd].
  apply orb_false_elim in Hvalid as [Hslash _].
  unfold plain_segment, proper_segment. rewrite Hd.
  apply String.eqb_neq in Hdd. apply String.eqb_neq in Hne. rewrite Hne.
  auto using includes_slash_free.
Qed.

Lemma segments_joined_segments (root cleaned : string) :
  isAbsolute root = true -> cleaned <> "" -> ~ In ".." (split_slash cleaned) ->
  segments (join root cleaned)
  = (segments root ++ List.filter proper_segment (split_slash cleaned))%list.
Proof.
  intros Habs Hne Hno. rewrite join_absolute by assumption.
  rewrite segments_normalize by now apply joined_absolute.
  unfold joined. destruct (String.eqb_spec cleaned ""); [contradiction|].
  unfold segments. rewrite isAbsolute_append, Habs by assumption.
  change (root ++ "/" ++ cleaned) with (root ++ String slash cleaned).
  rewrite split_slash_app. now apply normalizeSegments_app_no_dotdot.
Qed.

(** Joining one plain name to an absolute path adds that segment. *)
Lemma segments_join_name (parent name : string) :
  isAbsolute parent = true -> plain_segment name ->
  segments (join parent name) = (segments parent ++ [name])%list.
Proof.
  intros Habs (Hproper & Hdd & Hfree).
  assert (Hne : name <> "") by (intros ->; discriminate).
  rewrite segments_joined_segments; try assumption;
    rewrite split_slash_slash_free by assumption.
  - simpl. now rewrite Hproper.
  - intros [H|[]]. congruence.
Qed.

(** What validatePath returns under an absolute root. *)
Lemma validatePath_segments (root input full : string) :
  isAbsolute root = true -> validatePath root input = inr full ->
  isAbsolute full = true /\ exists below, segments full = (segments root ++ below)%list.
Proof.
  intros Habs Hok.
  destruct (validatePath_cases root input)
    as [(_ & H) | [(_ & _ & _ & H) | (_ & _ & Hno & H)]];
    rewrite H in Hok.
  - inversion Hok; subst. split; [assumption|]. exists []. now rewrite app_nil_r.
  - discriminate.
  - destruct (startsWith _ root); [|discriminate]. inversion Hok; subst. split.
    + rewrite join_absolute by assumption.
      now apply normalize_absolute_is_absolute, joined_absolute.
    + eexists. now apply segments_join.
Qed.

(** The form of what validatePath returns under a resolved root. *)
Lemma validatePath_resolved_form (root input full : string) :
  resolved_root root = true -> validatePath root input = inr full ->
  full = "/" ++ join_slash (segments full)
  /\ Forall plain_segment (segments full)
  /\ exists below,
       segments full = (segments root ++ below)%list
       /\ (input = "" \/ input = "/" -> below = [])
       /\ (input <> "" -> input <> "/" ->
           below = List.filter proper_segment (split_slash (strip_slashes input))).
Proof.
  intros Hres Hok. pose proof (resolved_root_absolute _ Hres) as Habs.
  destruct (validatePath_segments root input full Habs Hok) as [Hfull _].
  split; [|split; [now apply segments_plain|]].
  - destruct (validatePath_cases root input)
      as [(_ & H) | [(_ & _ & _ & H) | (_ & _ & Hno & H)]];
      rewrite H in Hok.
    + inversion Hok; subst. now apply String.eqb_eq in Hres.
    + discriminate.
    + destruct (startsWith _ root); [|discriminate]. inversion Hok; subst.
      rewrite segments_join by assumption. now apply join_resolved.
  - destruct (validatePath_cases root input)
      as [(Hin & H) | [(_ & _ & _ & H) | (Hne & Hns & Hno & H)]];
      rewrite H in Hok.
    + inversion Hok; subst. exists []. rewrite app_nil_r.
      repeat split; auto. intros; destruct Hin; contradiction.
    + discriminate.
    + destruct (startsWith _ root); [|discriminate]. inversion Hok; subst.
      eexists. split; [now apply segments_join|]. split; [|reflexivity].
      intros [?|?]; contradiction.
Qed.


(** *** path.dirname on a path in resolved form *)









(** *** The routes *)

(** X3: when POST /api/folders gets as far as creating a folder under an
    absolute storage root, the name was given and the folder is a direct
    child of the parent path validatePath returned: its segments are the
    parent's followed by the name, so it lies under the storage root. *)
Theorem newFolderPath_direct_child (UPLOAD_DIR : string) (folderPath name : option string)
    (created : string) :
  isAbsolute UPLOAD_DIR = true ->
  newFolderPath UPLOAD_DIR folderPath name = inr created ->
  exists parentPath child below,
    name = Some child
    /\ validatePath UPLOAD_DIR (or_else folderPath "/") = inr parentPath
    /\ segments parentPath = (segments UPLOAD_DIR ++ below)%list
    /\ segments created = (segments UPLOAD_DIR ++ below ++ [child])%list.
Proof.
  intros Habs Hcreated. unfold newFolderPath in Hcreated.
  destruct name as [child|]; [|discriminate].
  destruct (String.eqb_spec child "") as [|Hne]; [discriminate|].
  destruct (invalid_folder_name child) eqn:Hvalid; [discriminate|].
  destruct (validatePath UPLOAD_DIR (or_else folderPath "/")) as [e|parentPath] eqn:Hparent;
    [discriminate|].
  inversion Hcreated; subst.
  destruct (validatePath_segments _ _ _ Habs Hparent) as (Hpabs & below & Hbelow).
  exists parentPath, child, below. repeat split; try assumption.
  rewrite segments_join_name by auto using valid_folder_name_plain.
  now rewrite Hbelow, <- app_assoc.
Qed.

Lemma newFolderPath_direct_child_witness :
  exists parentPath child below,
    Some "2024" = Some child
    /\ validatePath "/data" (or_else (Some "/photos") "/") = inr parentPath
    /\ segments parentPath = (segments "/data" ++ below)%list
    /\ segments "/data/photos/2024" = (segments "/data" ++ below ++ [child])%list.
Proof.
  apply (newFolderPath_direct_child "/data" (Some "/photos") (Some "2024"));
    reflexivity.
Defined.








Example renamePaths_of_root :
  renamePaths "/data" "" (Some "elsewhere") = inr ("/data", "/elsewhere").
Proof. reflexivity. Qed.

(** X6: DELETE /api/folders refuses only the empty folder path. Under a
    resolved storage root the folder it goes on to remove has the root's
    segments followed by the proper segments of the path, and it is the
    storage root itself exactly when the path has no proper segment (as
    "/", "." or "./" have none). *)
Theorem deleteFolderPath_root_exactly (UPLOAD_DIR folderPath fullPath : string) :
  resolved_root UPLOAD_DIR = true ->
  deleteFolderPath UPLOAD_DIR folderPath = inr fullPath ->
  folderPath <> ""
  /\ segments fullPath
     = (segments UPLOAD_DIR
        ++ List.filter proper_segment (split_slash (strip_slashes folderPath)))%list
  /\ (fullPath = UPLOAD_DIR
      <-> List.filter proper_segment (split_slash (strip_slashes folderPath)) = []).
Proof.
  intros Hres Hdelete. unfold deleteFolderPath in Hdelete.
  destruct (String.eqb_spec folderPath "") as [|Hne]; [discriminate|].
  destruct (validatePath UPLOAD_DIR folderPath) as [e|full] eqn:Hfull; [discriminate|].
  inversion Hdelete; subst. clear Hdelete.
  destruct (validatePath_resolved_form _ _ _ Hres Hfull)
    as (Hform & _ & below & Hbelow & Hroot & Hother).
  assert (Hsegs : below
                  = List.filter proper_segment (split_slash (strip_slashes folderPath))).
  { destruct (String.eqb_spec folderPath "/") as [->|Hns]; [|now apply Hother].
    rewrite Hroot by now right. reflexivity. }
  rewrite <- Hsegs. split; [assumption|]. split; [assumption|]. split.
  - intros Heq. rewrite Heq in Hbelow.
    rewrite <- (app_nil_r (segments UPLOAD_DIR)) in Hbelow at 1.
    now apply app_inv_head in Hbelow.
  - intros Hnil. rewrite Hnil, app_nil_r in Hbelow.
    apply String.eqb_eq in Hres. now rewrite Hform, Hres, Hbelow.
Qed.

Lemma deleteFolderPath_root_exactly_witness :
  "./" <> ""
  /\ segments "/data"
     = (segments "/data"
        ++ List.filter proper_segment (split_slash (strip_slashes "./")))%list
  /\ ("/data" = "/data"
      <-> List.filter proper_segment (split_slash (strip_slashes "./")) = []).
Proof.
  apply (deleteFolderPath_root_exactly "/data" "./" "/data"); reflexivity.
Defined.

End RoutesFacts.

(** ** What the summary and the listing depend on *)

Section FolderViewsFacts.
Import FolderSummarizer FolderViews.

Lemma stat_map_entries (f : node -> node) (n : node) :
  stat (map_entries f n) = stat n.
Proof. now destruct n as [size mtime|size mtime [e|items]|e]. Qed.

Lemma for_of_add_subItem_map (f : node -> node) (subItems : list (string * node))
    (total : Z) :
  (forall n, stat (f n) = stat n) ->
  for_of (map (fun item => (item.1, f item.2)) subItems) add_subItem total
  = for_of subItems add_subItem total.
Proof.
  intros Hstat. revert total.
  induction subItems as [|[name n] rest IH]; intros total; [reflexivity|].
  cbn [map for_of]. unfold add_subItem at 1 3. simpl. rewrite Hstat.
  destruct (stat n) as [e|st]; simpl; [reflexivity | apply IH].
Qed.

Lemma add_item_map_entries (f : node -> node) (item : string * node) (acc : Z * nat) :
  (forall n, stat (f n) = stat n) ->
  add_item acc (item.1, map_entries f item.2) = add_item acc item.
Proof.
  intros Hstat. destruct acc as [total count].
  destruct item as [name [size mtime|size mtime [e|subItems]|e]]; try reflexivity.
  unfold add_item. simpl. now rewrite for_of_add_subItem_map.
Qed.

Lemma for_of_add_item_map (f : node -> node) (items : list (string * node))
    (acc : Z * nat) :
  (forall n, stat (f n) = stat n) ->
  for_of (map (fun item => (item.1, map_entries f item.2)) items) add_item acc
  = for_of items add_item acc.
Proof.
  intros Hstat. revert acc.
  induction items as [|item rest IH]; intros acc; [reflexivity|].
  cbn [map for_of]. rewrite add_item_map_entries by assumption.
  destruct (add_item acc item) as [e|acc']; [reflexivity | apply IH].
Qed.

(** X7: getFolderMetadata looks two levels down and no further: whatever
    replaces the entries of the folder's subdirectories, as long as [stat]
    reports the same for them, the result (summary or error) is the same.
    So what lies inside a grandchild directory, or whether it can be read
    at all, never shows. *)
Theorem getFolderMetadata_two_levels (f : node -> node) (folder : node) :
  (forall n, stat (f n) = stat n) ->
  getFolderMetadata (map_grandchildren f folder) = getFolderMetadata folder.
Proof.
  intros Hstat. unfold getFolderMetadata, map_grandchildren.
  destruct folder as [size mtime|size mtime [e|items]|e]; try reflexivity.
  simpl. now rewrite for_of_add_item_map.
Qed.

Lemma stat_lock (n : node) : stat (lock n) = stat n.
Proof. now destruct n. Qed.

Lemma getFolderMetadata_two_levels_witness :
  getFolderMetadata
    (map_grandchildren lock
       (Directory 4096 0
          (inr [("photos",
                 Directory 4096 0
                   (inr [("2024", Directory 4096 0 (inr [("a.jpg", File 500 0)]));
                         ("index.txt", File 7 0)]))])))
  = getFolderMetadata
      (Directory 4096 0
         (inr [("photos",
                Directory 4096 0
                  (inr [("2024", Directory 4096 0 (inr [("a.jpg", File 500 0)]));
                        ("index.txt", File 7 0)]))])).
Proof. exact (getFolderMetadata_two_levels lock _ stat_lock). Defined.

(** *** The listing *)

Lemma getFolderMetadata_summary_of (n : node) (size mtime : Z)
    (entries : fs_error + list (string * node)) :
  n = Directory size mtime entries ->
  match summary_of n with
  | Some summary => getFolderMetadata n = inr summary
  | None => exists e, getFolderMetadata n = inl e
  end.
Proof.
  intros ->. unfold summary_of, getFolderMetadata. simpl.
  destruct entries as [e|items]; simpl; [eauto|].
  destruct (forallb (fun item => child_ok item.2) items) eqn:Hok.
  - rewrite for_of_add_item by assumption. reflexivity.
  - destruct (for_of_add_item_fails items (0%Z, 0) Hok) as [e ->]. eauto.
Qed.

Lemma itemDetail_describe (item : string * node) :
  stat_ok item.2 = true -> itemDetail item = inr (describe item).
Proof.
  destruct item as [name [size mtime|size mtime entries|e]]; try discriminate; intros _.
  - reflexivity.
  - unfold itemDetail, describe.
    pose proof (getFolderMetadata_summary_of (Directory size mtime entries)
                  size mtime entries eq_refl) as Hsummary.
    cbn [stat snd fst st_isDirectory]. simpl mbind.
    destruct (summary_of (Directory size mtime entries)) as [summary|].
    + rewrite Hsummary. reflexivity.
    + destruct Hsummary as [e ->]. reflexivity.
Qed.

Lemma itemDetail_broken (item : string * node) :
  stat_ok item.2 = false -> exists e, itemDetail item = inl e.
Proof.
  destruct item as [name [size mtime|size mtime entries|e]]; try discriminate.
  intros _. now exists e.
Qed.

(** X8: the listing of GET /api/files is one entry per item, in order: a
    file with its size and no itemCount; a subdirectory whose two levels
    can all be read with the number of its children and, as size, the
    running total of the sizes of its files and of its subdirectories'
    children, added one by one as Numbers; any other subdirectory with
    itemCount 0 and its own size. It fails as a whole as soon as [stat]
    fails on one listed item. *)
Theorem itemDetails_describes (folder : node) (items : list (string * node)) :
  readdir folder = inr items ->
  (forallb (fun item => stat_ok item.2) items = true ->
   itemDetails folder = inr (map describe items))
  /\ (forallb (fun item => stat_ok item.2) items = false ->
      exists e, itemDetails folder = inl e).
Proof.
  intros Hread. unfold itemDetails. rewrite Hread. simpl mbind. clear Hread. split.
  - induction items as [|item rest IH]; intros Hok; [reflexivity|].
    simpl in Hok. apply andb_prop in Hok as [Hitem Hrest].
    cbn [all_details map]. rewrite (itemDetail_describe item Hitem). simpl.
    now rewrite (IH Hrest).
  - induction items as [|item rest IH]; intros Hbad; [discriminate|].
    cbn [all_details]. destruct (stat_ok item.2) eqn:Hitem.
    + rewrite (itemDetail_describe item Hitem). simpl.
      simpl in Hbad. rewrite Hitem in Hbad.
      destruct (IH Hbad) as [e ->]. now exists e.
    + destruct (itemDetail_broken item Hitem) as [e ->]. now exists e.
Qed.

Lemma itemDetails_describes_witness :
  itemDetails three_files_one_empty_dir
  = inr (map describe [("a.txt", File 10 0); ("b.txt", File 20 0); ("c.txt", File 30 0);
                       ("empty", Directory 4096 0 (inr []))]).
Proof.
  apply (proj1 (itemDetails_describes three_files_one_empty_dir _ eq_refl)).
  reflexivity.
Defined.

End FolderViewsFacts.

(** ** More on the hook chain *)

Section HookMore.
Import PluginManager.
Local Close Scope string_scope.

Context {P W H : Type}.
Implicit Types (s : state P W H) (cb : callback P W) (m : manager P W H).




(** X11: hook names are independent, and routes do not touch hooks: with a
    callback registered under another name, or a route added, executeHook
    does on a name exactly what it did before. *)
Theorem executeHook_other_registrations s hookName other cb data
    (method path : string) (handler : H) :
  other <> hookName ->
  executeHook hookName data (with_manager (registerHook_on (mgr s) other cb) s)
  = (let '(o, s1) := executeHook hookName data s in
     (o, with_manager (registerHook_on (mgr s) other cb) s1))
  /\ executeHook hookName data
       (with_manager (addRoute_on (mgr s) method path handler) s)
     = (let '(o, s1) := executeHook hookName data s in
        (o, with_manager (addRoute_on (mgr s) method path handler) s1)).
Proof.
  intros Hne. rewrite !executeHook_loop.
  change (mgr (with_manager ?m s)) with m.
  rewrite registerHook_on_lookup_ne by assumption.
  change (hooks (addRoute_on (mgr s) method path handler)) with (hooks (mgr s)).
  split; apply hook_loop_with_manager.
Qed.

End HookMore.

Section HookMoreScenarios.
Import PluginManager.
Local Close Scope string_scope.


Lemma executeHook_other_registrations_witness :
  executeHook "beforeUpload" (Some 0)
    (with_manager
       (registerHook_on (mgr (three_callbacks (Thrown_error "boom"))) "afterDelete" observer)
       (three_callbacks (Thrown_error "boom")))
  = (let '(o, s1) :=
       executeHook "beforeUpload" (Some 0) (three_callbacks (Thrown_error "boom")) in
     (o, with_manager
           (registerHook_on (mgr (three_callbacks (Thrown_error "boom")))
              "afterDelete" observer) s1)).
Proof.
  apply (proj1 (executeHook_other_registrations (three_callbacks (Thrown_error "boom"))
                  "beforeUpload" "afterDelete" observer (Some 0) "GET" "/api/x" tt
                  ltac:(discriminate))).
Defined.

End HookMoreScenarios.

(** ** More on loading plugins *)

Section LoaderMore.
Import NodePath PluginManager PluginViews.
Local Close Scope string_scope.

Context {P W H : Type}.
Implicit Types (s : state P W H) (m : manager P W H) (fs : plugins_fs P W H)
  (files : plugin_files P W H) (module : plugin_module P W H).

Local Ltac run :=
  unfold try_catch, message_of, log, throw, lift, get_manager, set_manager,
    with_world, with_log, with_manager; unfold mbind, M_bind, mret, M_ret.

(** What a run of registrations leaves in the manager. *)
Lemma for_of_registrations_effect s (regs : list (registration P W H)) :
  exists m',
    for_of regs apply_registration s = (Returned tt, with_manager m' s)
    /\ plugins m' = plugins (mgr s)
    /\ routes m' = routes (mgr s) ++ routes_of regs
    /\ forall hookName,
         default [] (hooks m' !! hookName)
         = default [] (hooks (mgr s) !! hookName) ++ callbacks_of hookName regs.
Proof.
  revert s. induction regs as [|r rest IH]; intros s.
  - exists (mgr s). destruct s. simpl. rewrite app_nil_r.
    repeat split. intros hookName. now rewrite app_nil_r.
  - cbn [for_of]. unfold mbind at 1, M_bind at 1.
    destruct r as [name cb|method path handler]; cbn [apply_registration].
    + unfold registerHook. run.
      destruct (IH {| mgr := registerHook_on (mgr s) name cb; world := world s;
                      console := console s |}) as (m' & -> & Hp & Hr & Hh).
      exists m'. simpl in *. split; [reflexivity|]. split; [assumption|].
      split; [assumption|]. intros hookName. rewrite Hh.
      destruct (String.eqb_spec name hookName) as [->|Hne].
      * rewrite lookup_insert_eq. simpl. now rewrite <- app_assoc.
      * now rewrite lookup_insert_ne.
    + unfold addRoute. run.
      destruct (IH {| mgr := addRoute_on (mgr s) method path handler; world := world s;
                      console := console s |}) as (m' & -> & Hp & Hr & Hh).
      exists m'. simpl in *. split; [reflexivity|]. split; [assumption|].
      split; [now rewrite Hr, <- app_assoc|]. exact Hh.
Qed.

Lemma run_init_effect s init config pluginDir :
  exists m',
    run_init init config pluginDir s
    = (init_result (init config pluginDir (world s)),
       {| mgr := m'; world := init_world (init config pluginDir (world s));
          console := console s |})
    /\ plugins m' = plugins (mgr s)
    /\ routes m' = routes (mgr s) ++ routes_of (registrations (init config pluginDir (world s)))
    /\ forall hookName,
         default [] (hooks m' !! hookName)
         = default [] (hooks (mgr s) !! hookName)
           ++ callbacks_of hookName (registrations (init config pluginDir (world s))).
Proof.
  unfold run_init.
  destruct (for_of_registrations_effect
              {| mgr := mgr s; world := init_world (init config pluginDir (world s));
                 console := console s |}
              (registrations (init config pluginDir (world s))))
    as (m' & -> & Hp & Hr & Hh).
  exists m'. simpl in *. auto.
Qed.

(** X12: what [init] registered stays registered whether [init] then
    returns or throws: after loadPlugin the routes and, under every hook
    name, the callbacks are the earlier ones followed by those [init]
    registered, in the order of its calls. When [init] throws an Error
    loadPlugin still returns, logs the failure and records no plugin, so
    the hooks of a plugin that getPluginInfo does not show keep running. *)
Theorem loadPlugin_keeps_registrations fs pluginName s module init config :
  reaches_init (plugin_dir fs pluginName) module init config ->
  routes (mgr (loadPlugin fs pluginName s).2)
  = routes (mgr s)
    ++ routes_of (registrations
                    (init config (join (pluginsDir (mgr s)) pluginName) (world s)))
  /\ (forall hookName,
        default [] (hooks (mgr (loadPlugin fs pluginName s).2) !! hookName)
        = default [] (hooks (mgr s) !! hookName)
          ++ callbacks_of hookName
               (registrations
                  (init config (join (pluginsDir (mgr s)) pluginName) (world s))))
  /\ (forall message,
        init_result (init config (join (pluginsDir (mgr s)) pluginName) (world s))
        = Threw (Thrown_error message) ->
        (loadPlugin fs pluginName s).1 = Returned tt
        /\ plugins (mgr (loadPlugin fs pluginName s).2) = plugins (mgr s)
        /\ console (loadPlugin fs pluginName s).2
           = console s ++ [Error_failed_to_load pluginName message]).
Proof.
  intros (Hindex & (Hconfig & Henabled) & Hjs & Hinit).
  unfold loadPlugin. run. simpl. rewrite Hindex. simpl.
  destruct Hconfig as [[-> ->] | ->]; simpl; rewrite ?Henabled; simpl;
    rewrite Hjs; simpl; unfold validatePlugin; rewrite Hinit; run; simpl;
    match goal with |- context [run_init init ?c ?d ?s0] =>
      destruct (run_init_effect s0 init c d) as (m' & -> & Hplugins & Hroutes & Hhooks)
    end; simpl in *;
    destruct (init_result _) as [[]|[|message]]; simpl;
    (split; [assumption|]); (split; [assumption|]);
    intros message' [=]; subst; auto.
Qed.

(** X13: the plugin directories loadPlugin passes over before it loads
    any code. Without [index.js], with a [config.json] that cannot be read
    or parsed, or with a configuration that is [null], loadPlugin returns
    normally, leaves the manager and the world as they were and writes one
    line on the console. *)
Theorem loadPlugin_passes_over fs pluginName s :
  (has_index (plugin_dir fs pluginName) = false ->
   loadPlugin fs pluginName s = (Returned tt, with_log (Warn_no_index pluginName) s))
  /\ (forall message,
        has_index (plugin_dir fs pluginName) = true ->
        config_json (plugin_dir fs pluginName) = Some (inl message) ->
        loadPlugin fs pluginName s
        = (Returned tt, with_log (Error_failed_to_load pluginName message) s))
  /\ (has_index (plugin_dir fs pluginName) = true ->
      config_json (plugin_dir fs pluginName) = Some (inr JNull) ->
      loadPlugin fs pluginName s
      = (Returned tt,
         with_log (Error_failed_to_load pluginName
                     "Cannot read properties of null (reading 'enabled')") s)).
Proof.
  split; [|split].
  - intros Hindex. unfold loadPlugin. run. simpl. now rewrite Hindex.
  - intros message Hindex Hconfig. unfold loadPlugin. run. simpl.
    now rewrite Hindex, Hconfig.
  - intros Hindex Hconfig. unfold loadPlugin. run. simpl.
    now rewrite Hindex, Hconfig.
Qed.


(** *** The names getPluginInfo can show *)

Lemma map_set_names {V : Type} (entries : list (string * V)) (key : string) (v : V) :
  (In key (map fst entries) -> map fst (map_set entries key v) = map fst entries)
  /\ (~ In key (map fst entries) ->
      map fst (map_set entries key v) = map fst entries ++ [key]).
Proof.
  induction entries as [|[k v'] rest [IHin IHout]]; simpl.
  - split; [intros [] | reflexivity].
  - destruct (String.eqb_spec k key) as [->|Hne]; simpl.
    + split; [reflexivity | intros Hout; exfalso; apply Hout; now left].
    + split.
      * intros [?|Hin]; [contradiction|]. now rewrite IHin.
      * intros Hout. rewrite IHout; [reflexivity|]. intros Hin. apply Hout. now right.
Qed.

Lemma map_set_names_NoDup {V : Type} (entries : list (string * V)) (key : string) (v : V) :
  NoDup (map fst entries) ->
  NoDup (map fst (map_set entries key v))
  /\ forall name, In name (map fst (map_set entries key v)) ->
                  In name (map fst entries) \/ name = key.
Proof.
  intros Hnodup. destruct (map_set_names entries key v) as [Hin Hout].
  destruct (in_dec string_dec key (map fst entries)) as [Hkey|Hkey].
  - rewrite (Hin Hkey). auto.
  - rewrite (Hout Hkey). split.
    + apply NoDup_app. split; [assumption|]. split; [|apply NoDup_singleton].
      intros name Hname ->%list_elem_of_singleton. apply Hkey.
      now apply list_elem_of_In.
    + intros name [?|[<-|[]]]%in_app_or; auto.
Qed.

(** loadPlugin records at most the plugin it was called for. *)
Lemma loadPlugin_plugins fs pluginName s :
  plugins (mgr (loadPlugin fs pluginName s).2) = plugins (mgr s)
  \/ exists entry,
       plugins (mgr (loadPlugin fs pluginName s).2)
       = map_set (plugins (mgr s)) pluginName entry.
Proof.
  unfold loadPlugin. run. simpl.
  destruct (has_index (plugin_dir fs pluginName)); simpl; [|now left].
  destruct (config_json (plugin_dir fs pluginName)) as [[message|config]|]; simpl;
    [now left| |].
  all: try match goal with |- context [enabled_is_false ?c] =>
         destruct (enabled_is_false c) as [[|]|[|message]]; simpl; try (now left)
       end.
  all: destruct (index_js (plugin_dir fs pluginName)) as [[u|module]|[u|message]]; simpl;
    try (now left).
  all: unfold validatePlugin; destruct (p_init module) as [init|]; run; simpl;
    try (now left).
  all: match goal with |- context [run_init ?i ?c ?d ?s0] =>
         destruct (run_init_state s0 i c d) as (m' & -> & Hplugins & Hdir)
       end; simpl in *;
       destruct (init_result _) as [[]|[|message']]; simpl; try (now left).
  all: right; eexists; now rewrite Hplugins.
Qed.

Lemma for_of_loadPlugin_names fs (dirs : list dirent) s :
  NoDup (plugin_names (mgr s)) ->
  NoDup (plugin_names (mgr (for_of dirs (fun dir => loadPlugin fs (d_name dir)) s).2))
  /\ forall name,
       In name (plugin_names (mgr (for_of dirs (fun dir => loadPlugin fs (d_name dir)) s).2)) ->
       In name (plugin_names (mgr s)) \/ In name (map d_name dirs).
Proof.
  revert s. induction dirs as [|dir rest IH]; intros s Hnodup; [simpl; auto|].
  cbn [for_of]. unfold mbind, M_bind.
  assert (Hstep : NoDup (plugin_names (mgr (loadPlugin fs (d_name dir) s).2))
                  /\ forall name,
                       In name (plugin_names (mgr (loadPlugin fs (d_name dir) s).2)) ->
                       In name (plugin_names (mgr s)) \/ name = d_name dir).
  { unfold plugin_names in *.
    destruct (loadPlugin_plugins fs (d_name dir) s) as [-> | [entry ->]]; [auto|].
    now apply map_set_names_NoDup. }
  destruct Hstep as [Hnodup1 Hnames1].
  destruct (loadPlugin fs (d_name dir) s) as [[[]|e] s1]; simpl in *.
  - destruct (IH s1 Hnodup1) as [Hnodup2 Hnames2]. split; [assumption|].
    intros name Hname. destruct (Hnames2 name Hname) as [Hin|Hin]; [|auto].
    destruct (Hnames1 name Hin) as [?| ->]; auto.
  - split; [assumption|]. intros name Hname.
    destruct (Hnames1 name Hname) as [?| ->]; auto.
Qed.

(** X15: loadPlugins keeps the names under which plugins are recorded
    distinct, and records only directories that discovery kept: getPluginInfo
    shows no plugin directory twice and nothing that is a file, or whose
    name begins with [_] or [.]. *)
Theorem loadPlugins_records_discovered fs s :
  NoDup (plugin_names (mgr s)) ->
  NoDup (plugin_names (mgr (loadPlugins fs s).2))
  /\ length (getPluginInfo (mgr (loadPlugins fs s).2))
     = length (plugin_names (mgr (loadPlugins fs s).2))
  /\ forall name,
       In name (plugin_names (mgr (loadPlugins fs s).2)) ->
       In name (plugin_names (mgr s))
       \/ exists entries dir,
            dir_entries fs = inr entries /\ In dir (pluginDirs entries)
            /\ d_name dir = name.
Proof.
  intros Hnodup.
  split; [|split; [unfold getPluginInfo, plugin_names; now rewrite !length_map|]].
  all: unfold loadPlugins; run; simpl.
  all: destruct (dir_exists fs); simpl;
    [|unfold fs_mkdir; simpl; destruct (mkdir fs (world s)) as [[message|] w];
      simpl; auto].
  all: destruct (dir_entries fs) as [message|entries]; simpl; auto.
  all: match goal with |- context [for_of ?dirs ?body ?s0] =>
         destruct (for_of_loadPlugin_names fs dirs s0 Hnodup) as [Hnodup' Hnames];
         destruct (for_of dirs body s0) as [[[]|[|message]] s1]; simpl in *
       end; auto.
  all: intros name Hname; destruct (Hnames name Hname) as [?|Hin]; [auto|];
    right; apply in_map_iff in Hin as (dir & <- & Hdir); eauto.
Qed.

End LoaderMore.

(** ** Breadcrumbs and the parent directory *)

Section BreadcrumbFacts.
Import JsString Frontend.
Local Close Scope string_scope.

Lemma parts_of_pieces (path : string) : Forall piece (parts_of path).
Proof.
  unfold parts_of. pose proof (split_slash_segments_slash_free path) as Hfree.
  induction Hfree as [|seg segs Hseg _ IH]; [constructor|].
  simpl. destruct (String.eqb_spec seg ""); simpl; [assumption|].
  constructor; [now split | assumption].
Qed.

Lemma parts_filter_id (parts : list string) :
  Forall piece parts -> List.filter (fun p => negb (String.eqb p "")) parts = parts.
Proof.
  induction 1 as [|p parts [Hne _] _ IH]; [reflexivity|].
  simpl. destruct (String.eqb_spec p ""); [contradiction|]. simpl. now rewrite IH.
Qed.

Lemma pieces_slash_free (parts : list string) :
  Forall piece parts -> Forall (fun seg => slash_free seg = true) parts.
Proof. intros Hall. eapply List.Forall_impl; [|exact Hall]. now intros p [_ ?]. Qed.

Lemma join_pieces_nonempty (parts : list string) :
  Forall piece parts -> parts ≠ [] -> join_slash parts ≠ "".
Proof.
  intros Hall Hne. destruct Hall as [|p rest [Hp _] _]; [congruence|].
  destruct rest as [|q rest'].
  - exact Hp.
  - rewrite join_slash_cons by discriminate. destruct p; [congruence | discriminate].
Qed.

(** The pieces of a path written from pieces. *)
Lemma parts_of_join (parts : list string) :
  Forall piece parts -> parts_of (String slash (join_slash parts)) = parts.
Proof.
  intros Hall. unfold parts_of. cbn [split_slash].
  change (is_slash slash) with true. cbv iota.
  destruct (decide (parts = [])) as [->|Hne]; [reflexivity|].
  rewrite split_join_slash by auto using pieces_slash_free.
  simpl. now apply parts_filter_id.
Qed.

(** The test for "/" changes nothing: it is the general case. *)
Lemma buildBreadcrumbs_parts (path : string) :
  buildBreadcrumbs path = home :: push_crumbs "" (parts_of path).
Proof.
  unfold buildBreadcrumbs. now destruct (String.eqb_spec path "/") as [->|].
Qed.

Lemma push_crumbs_lookup (parts : list string) (currentPath : string) (i : nat)
    (c : crumb) :
  push_crumbs currentPath parts !! i = Some c ->
  parts !! i = Some (c_name c)
  ∧ c_path c = (currentPath +:+ String slash (join_slash (take (S i) parts)))%string.
Proof.
  revert currentPath i. induction parts as [|part rest IH]; intros currentPath i;
    [discriminate|].
  destruct i as [|i]; cbn [push_crumbs].
  - intros [= <-]. split; [reflexivity|]. simpl. now destruct rest.
  - intros Hlookup. apply IH in Hlookup as [Hname Hpath].
    split; [exact Hname|]. rewrite Hpath.
    assert (Hsome : take (S i) rest ≠ []).
    { destruct rest; [discriminate Hname | discriminate]. }
    change (take (S (S i)) (part :: rest)) with (part :: take (S i) rest).
    rewrite (join_slash_cons part) by assumption.
    change ("/" +:+ part)%string with (String slash part).
    rewrite append_assoc, append_cons. reflexivity.
Qed.

Lemma push_crumbs_take (parts : list string) (currentPath : string) (k : nat) :
  push_crumbs currentPath (take k parts) = take k (push_crumbs currentPath parts).
Proof.
  revert currentPath k. induction parts as [|part rest IH]; intros currentPath k.
  - now destruct k.
  - destruct k as [|k]; [reflexivity|]. cbn [take push_crumbs]. now rewrite IH.
Qed.

Lemma push_crumbs_names (parts : list string) (currentPath : string) :
  map c_name (push_crumbs currentPath parts) = parts.
Proof.
  revert currentPath. induction parts as [|part rest IH]; intros currentPath;
    [reflexivity|].
  cbn [push_crumbs map c_name]. now rewrite IH.
Qed.

(** The path of the crumb at position [k]. *)
Lemma buildBreadcrumbs_lookup (path : string) (k : nat) (c : crumb) :
  buildBreadcrumbs path !! k = Some c ->
  c_path c = String slash (join_slash (take k (parts_of path)))
  ∧ k ≤ length (parts_of path).
Proof.
  rewrite buildBreadcrumbs_parts. destruct k as [|k].
  - intros [= <-]. split; [reflexivity | lia].
  - intros Hlookup. change ((home :: ?l) !! S k) with (l !! k) in Hlookup.
    pose proof (push_crumbs_lookup _ _ _ _ Hlookup) as [Hname Hpath].
    split; [exact Hpath|]. apply lookup_lt_Some in Hname. lia.
Qed.

(** X16: the breadcrumb trail is closed under navigation. The crumbs are
    "Home" and then one crumb for each non-empty piece of the path, in
    order; building the breadcrumbs of the path of any crumb gives the
    trail up to and including that crumb. *)
Theorem buildBreadcrumbs_navigation (path : string) :
  map c_name (buildBreadcrumbs path) = "Home" :: parts_of path
  ∧ ∀ (k : nat) (c : crumb),
      buildBreadcrumbs path !! k = Some c ->
      buildBreadcrumbs (c_path c) = take (S k) (buildBreadcrumbs path).
Proof.
  split.
  - rewrite buildBreadcrumbs_parts. cbn [map]. now rewrite push_crumbs_names.
  - intros k c Hlookup. apply buildBreadcrumbs_lookup in Hlookup as [-> _].
    rewrite !buildBreadcrumbs_parts, parts_of_join.
    + cbn [take]. now rewrite push_crumbs_take.
    + apply Forall_take, parts_of_pieces.
Qed.

Lemma buildBreadcrumbs_navigation_witness :
  buildBreadcrumbs "/photos/2024"
  = take 3 (buildBreadcrumbs "/photos//2024/summer/").
Proof.
  apply (proj2 (buildBreadcrumbs_navigation "/photos//2024/summer/") 2
           {| c_name := "2024"; c_path := "/photos/2024" |}).
  reflexivity.
Defined.

Lemma removelast_take {A : Type} (l : list A) (k : nat) :
  S k ≤ length l -> removelast (take (S k) l) = take k l.
Proof.
  assert (Hcons : ∀ (a : A) (l' : list A),
             l' ≠ [] -> removelast (a :: l') = a :: removelast l').
  { intros a [|b l'] Hne; [congruence | reflexivity]. }
  revert k. induction l as [|x l IH]; intros k Hk; [simpl in Hk; lia|].
  destruct k as [|k]; [reflexivity|].
  simpl in Hk. change (take (S (S k)) (x :: l)) with (x :: take (S k) l).
  rewrite Hcons.
  - rewrite IH by lia. reflexivity.
  - destruct l; [simpl in Hk; lia | simpl; discriminate].
Qed.

(** X17: the parent directory card leads one crumb back: for two
    neighbouring crumbs of a trail, the parent path computed from the path
    of the later one is the path of the earlier one. *)
Theorem parentPath_previous_crumb (path : string) (k : nat) (c c' : crumb) :
  buildBreadcrumbs path !! k = Some c ->
  buildBreadcrumbs path !! S k = Some c' ->
  parentPath (c_path c') = c_path c.
Proof.
  intros Hc Hc'.
  apply buildBreadcrumbs_lookup in Hc as [-> _].
  apply buildBreadcrumbs_lookup in Hc' as [-> Hlen].
  pose proof (parts_of_pieces path) as Hpieces.
  unfold parentPath. cbn [split_slash]. change (is_slash slash) with true. cbv iota.
  rewrite split_join_slash;
    [|destruct (parts_of path); [simpl in Hlen; lia | discriminate]
     |apply pieces_slash_free, Forall_take, Hpieces].
  assert (Hlast : removelast ("" :: take (S k) (parts_of path))
                  = "" :: take k (parts_of path)).
  { rewrite <- (removelast_take (parts_of path) k Hlen).
    destruct (parts_of path); [simpl in Hlen; lia | reflexivity]. }
  rewrite Hlast. destruct (decide (take k (parts_of path) = [])) as [->|Hsome].
  - reflexivity.
  - rewrite join_slash_cons by assumption. reflexivity.
Qed.

Lemma parentPath_previous_crumb_witness :
  parentPath "/photos/2024" = "/photos".
Proof.
  apply (parentPath_previous_crumb "/photos/2024" 1
           {| c_name := "photos"; c_path := "/photos" |}
           {| c_name := "2024"; c_path := "/photos/2024" |}); reflexivity.
Defined.

End BreadcrumbFacts.

(** ** escapeHtml *)

Section EscapeFacts.
Import Frontend.

Lemma no_markup_app (a b : string) :
  no_markup (a ++ b) = no_markup a && no_markup b.
Proof.
  induction a as [|c a IH]; [reflexivity|].
  rewrite append_cons. cbn [no_markup]. now rewrite IH, andb_assoc.
Qed.

Local Ltac escape_cases c :=
  unfold escape_char;
  destruct (Ascii.eqb_spec c ampersand) as [->|?];
  [|destruct (Ascii.eqb_spec c less_than) as [->|?];
    [|destruct (Ascii.eqb_spec c greater_than) as [->|?];
      [|destruct (Ascii.eqb_spec c double_quote) as [->|?];
        [|destruct (Ascii.eqb_spec c single_quote) as [->|?]]]]].

Lemma escape_char_no_markup (c : ascii) : no_markup (escape_char c) = true.
Proof.
  escape_cases c; try reflexivity.
  cbn [no_markup].
  repeat match goal with
         | H : c <> _ |- _ => apply Ascii.eqb_neq in H; rewrite H; clear H
         end.
  reflexivity.
Qed.

(** X18: what escapeHtml returns contains no [<], no [>], no double and no
    single quote, whatever the text: put between tags or inside a quoted
    attribute it cannot open a tag or close the attribute. *)
Theorem escapeHtml_no_markup (text : string) : no_markup (escapeHtml text) = true.
Proof.
  induction text as [|c text IH]; [reflexivity|].
  cbn [escapeHtml]. now rewrite no_markup_app, escape_char_no_markup, IH.
Qed.

(** X19: escapeHtml loses nothing: two texts with the same escaped form
    are the same text. *)
Theorem escapeHtml_injective (a b : string) :
  escapeHtml a = escapeHtml b -> a = b.
Proof.
  revert b. induction a as [|c a IH]; intros [|d b] Heq.
  - reflexivity.
  - exfalso. cbn [escapeHtml] in Heq. revert Heq. escape_cases d; discriminate.
  - exfalso. cbn [escapeHtml] in Heq. revert Heq. escape_cases c; discriminate.
  - cbn [escapeHtml] in Heq. revert Heq.
    escape_cases c; escape_cases d; intros Heq;
      unfold ampersand, less_than, greater_than, double_quote, single_quote in *;
      rewrite ?append_cons, ?append_nil_l in Heq;
      try discriminate Heq;
      try (injection Heq as Heq; f_equal; now apply IH);
      try (injection Heq as ? ?; congruence).
    injection Heq as -> Heq. f_equal. now apply IH.
Qed.

Lemma escapeHtml_injective_witness : "a<b" = "a<b".
Proof. exact (escapeHtml_injective "a<b" "a<b" eq_refl). Defined.

End EscapeFacts.

(** ** More plugin directories *)

Section LoaderMoreScenarios.
Import NodePath PluginManager PluginViews MoreScenarios.
Local Close Scope string_scope.

Lemma half_initialised_reaches_init :
  reaches_init (plugin_dir (broken_then_working half_initialised) "broken")
    half_initialised half_init (JObject []).
Proof.
  unfold reaches_init, config_allows. simpl.
  split; [reflexivity|]. split; [split; [left; split; reflexivity | reflexivity]|].
  split; reflexivity.
Defined.

Lemma loadPlugin_keeps_registrations_witness :
  routes (mgr (loadPlugin (broken_then_working half_initialised) "broken" fresh).2)
  = routes (mgr fresh)
    ++ routes_of (registrations
                    (half_init (JObject []) (join (pluginsDir (mgr fresh)) "broken")
                       (world fresh)))
  /\ (forall hookName,
        default []
          (hooks (mgr (loadPlugin (broken_then_working half_initialised) "broken" fresh).2)
             !! hookName)
        = default [] (hooks (mgr fresh) !! hookName)
          ++ callbacks_of hookName
               (registrations
                  (half_init (JObject []) (join (pluginsDir (mgr fresh)) "broken")
                     (world fresh))))
  /\ (forall message,
        init_result
          (half_init (JObject []) (join (pluginsDir (mgr fresh)) "broken") (world fresh))
        = Threw (Thrown_error message) ->
        (loadPlugin (broken_then_working half_initialised) "broken" fresh).1 = Returned tt
        /\ plugins (mgr (loadPlugin (broken_then_working half_initialised) "broken" fresh).2)
           = plugins (mgr fresh)
        /\ console (loadPlugin (broken_then_working half_initialised) "broken" fresh).2
           = console fresh ++ [Error_failed_to_load "broken" message]).
Proof.
  exact (loadPlugin_keeps_registrations (broken_then_working half_initialised) "broken"
           fresh half_initialised half_init (JObject []) half_initialised_reaches_init).
Defined.

(** The hook of the plugin that failed is still called. *)
Example half_initialised_hook_runs :
  getPluginInfo (mgr (loadPlugins (broken_then_working half_initialised) fresh).2)
  = [{| name := "Audit log"; version := "1.0.0"; description := "" |}]
  /\ length (default []
               (hooks (mgr (loadPlugins (broken_then_working half_initialised) fresh).2)
                  !! "afterUpload")) = 2.
Proof. split; vm_compute; reflexivity. Qed.

Lemma loadPlugin_passes_over_witness :
  loadPlugin unparsable_config "working" fresh
  = (Returned tt,
     with_log (Error_failed_to_load "working" "Unexpected token } in JSON at position 12")
       fresh).
Proof.
  apply (proj1 (proj2 (loadPlugin_passes_over unparsable_config "working" fresh)));
    reflexivity.
Defined.


Lemma loadPlugins_records_discovered_witness :
  NoDup (plugin_names (mgr (loadPlugins (broken_then_working no_init_module) fresh).2))
  /\ length (getPluginInfo (mgr (loadPlugins (broken_then_working no_init_module) fresh).2))
     = length (plugin_names (mgr (loadPlugins (broken_then_working no_init_module) fresh).2))
  /\ forall name,
       In name (plugin_names (mgr (loadPlugins (broken_then_working no_init_module) fresh).2)) ->
       In name (plugin_names (mgr fresh))
       \/ exists entries dir,
            dir_entries (broken_then_working no_init_module) = inr entries
            /\ In dir (pluginDirs entries) /\ d_name dir = name.
Proof.
  apply (loadPlugins_records_discovered (broken_then_working no_init_module) fresh).
  constructor.
Defined.

End LoaderMoreScenarios.

(** ** The File Validator plugin *)

Section FileValidatorFacts.
Import PluginManager FileValidator.
Local Close Scope string_scope.

Context (toLowerCase : string -> string) {W H : Type}.
Context (allowedExtensions blockedExtensions : list string) (mode : string).

Lemma array_includes_spec (items : list string) (x : string) :
  reflect (In x items) (array_includes items x).
Proof.
  apply iff_reflect. unfold array_includes. rewrite existsb_exists. split.
  - intros Hin. exists x. split; [exact Hin | apply String.eqb_refl].
  - intros (y & Hin & ->%String.eqb_eq). exact Hin.
Qed.

Lemma length_positive_spec {A : Type} (l : list A) :
  reflect (l <> []) (Nat.ltb 0 (length l)).
Proof. destruct l; simpl; constructor; congruence. Qed.

Lemma check_file_accepted (file : upload_file) :
  check_file toLowerCase allowedExtensions blockedExtensions mode file = None
  <-> accepted toLowerCase allowedExtensions blockedExtensions mode file.
Proof.
  unfold check_file, accepted.
  set (ext := extension toLowerCase file).
  destruct (String.eqb_spec mode "whitelist");
    destruct (String.eqb_spec mode "blacklist");
    destruct (length_positive_spec allowedExtensions);
    destruct (length_positive_spec blockedExtensions);
    destruct (array_includes_spec allowedExtensions ext);
    destruct (array_includes_spec blockedExtensions ext);
    simpl; intuition (congruence || discriminate).
Qed.

(** X20: the File Validator lets an upload through exactly when every
    file is accepted: in mode 'whitelist' with a non-empty list of allowed
    extensions, when the lower-cased text after the last dot of its name
    is in the list; in mode 'blacklist' with a non-empty list of blocked
    extensions, when it is not in the list. With an empty list, or any
    other mode, every file is let through. *)
Theorem check_files_accepted (uploaded : list upload_file) :
  check_files toLowerCase allowedExtensions blockedExtensions mode uploaded = None
  <-> Forall (accepted toLowerCase allowedExtensions blockedExtensions mode) uploaded.
Proof.
  induction uploaded as [|file rest IH]; [split; [constructor | reflexivity]|].
  cbn [check_files].
  destruct (check_file toLowerCase allowedExtensions blockedExtensions mode file)
    as [message|] eqn:Hfile.
  - split; [discriminate|]. intros Hall. inversion Hall as [|? ? Hacc _]; subst.
    apply check_file_accepted in Hacc. congruence.
  - rewrite IH. split.
    + intros Hrest. constructor; [now apply check_file_accepted | exact Hrest].
    + intros Hall. now inversion Hall.
Qed.

(** X21: the File Validator cannot stop an upload. Its turn in the loop
    of executeHook ends with the payload it was given, whether it returned
    or threw its Error: a refusal only adds a line to the console, the
    callbacks after it are called, and with the validator alone on the
    hook executeHook returns the upload unchanged. *)
Theorem validator_cannot_block (s : state upload W H) (data : upload) :
  (hook_step "beforeUpload" (Some data)
     (validator toLowerCase W allowedExtensions blockedExtensions mode) s).1
  = Returned (Some data)
  /\ (hooks (mgr s) !! "beforeUpload"
      = Some [validator toLowerCase W allowedExtensions blockedExtensions mode] ->
      executeHook "beforeUpload" (Some data) s
      = (Returned (Some data),
         match check_files toLowerCase allowedExtensions blockedExtensions mode
                 (files data) with
         | Some message => with_log (Error_in_hook "beforeUpload" message) s
         | None => s
         end)).
Proof.
  assert (Hstep : hook_step "beforeUpload" (Some data)
                    (validator toLowerCase W allowedExtensions blockedExtensions mode) s
                  = (Returned (Some data),
                     match check_files toLowerCase allowedExtensions blockedExtensions
                             mode (files data) with
                     | Some message => with_log (Error_in_hook "beforeUpload" message) s
                     | None => s
                     end)).
  { destruct (check_files toLowerCase allowedExtensions blockedExtensions mode
                (files data)) as [message|] eqn:Hcheck.
    - rewrite (hook_step_error s _ _ _ message (world s)).
      + now destruct s.
      + unfold validator. now rewrite Hcheck.
    - rewrite (hook_step_value s _ _ _ data (world s)).
      + now destruct s.
      + unfold validator. now rewrite Hcheck. }
  split; [now rewrite Hstep|].
  intros Hhooks. rewrite executeHook_loop, Hhooks.
  change (default [] (Some ?l)) with l. now rewrite hook_loop_one.
Qed.

End FileValidatorFacts.

Section FileValidatorScenarios.
Import PluginManager FileValidator.
Local Close Scope string_scope.

Example setup_exe_refused :
  check_files toLowerCase_ascii [] ["exe"; "bat"] "blacklist" (files setup_exe)
  = Some "File type .exe is blocked".
Proof. reflexivity. Qed.

(** The extension is compared in lower case. *)
Example upper_case_exe_refused :
  check_files toLowerCase_ascii [] ["exe"; "bat"] "blacklist"
    [ {| originalname := "SETUP.EXE"; size := 4096 |} ]
  = Some "File type .exe is blocked".
Proof. reflexivity. Qed.

Lemma validator_cannot_block_witness :
  executeHook "beforeUpload" (Some setup_exe) validating
  = (Returned (Some setup_exe),
     with_log (Error_in_hook "beforeUpload" "File type .exe is blocked") validating).
Proof.
  apply (proj2 (validator_cannot_block toLowerCase_ascii [] ["exe"; "bat"] "blacklist"
                  validating setup_exe)).
  reflexivity.
Defined.

End FileValidatorScenarios.
